(** * ads-trackers-list: blocklist parsing and catalogue assembly (main.py)

    A shallow embedding of [parse_blocklist] and of the catalogue part of
    [main] from main.py, with the properties of the repository's
    specification stated and proved (or refuted) over it.

    Characters.  A Python [str] is a sequence of Unicode code points.  The
    model uses Rocq's 8-bit [ascii], read as the code points U+0000..U+00FF,
    and reproduces what CPython does with exactly these code points:
    [str.isspace], the line boundaries of [str.splitlines], [\w] and [\s]
    of the [re] module, [str.lower] and [str.upper].  The result of
    [str.upper] is a list of code points, since the upper-case forms of
    U+00B5 and U+00FF lie above U+00FF.  Input text with code points above
    U+00FF is outside the model.

    Sets.  A Python [set] is a finite set; the order in which a [for] loop
    visits its elements is not a function of the elements, and is a
    parameter of the model (see [set_iteration]).

    The network.  [requests.get] is a function of the number of requests
    made before and of the address: it returns the text of the response or
    fails.  The manifest is the list of lines the file iterator yields. *)

From Stdlib Require Import Ascii NArith Permutation Sorted.
From stdpp Require Import base list strings sorting gmap.

#[local] Set Warnings "-clear-no-such-hyp".

(** * The program *)

(** ** Code points *)

Module Char.

Local Open Scope N_scope.

Definition ord (c : ascii) : N := N_of_ascii c.
Definition chr (n : N) : ascii := ascii_of_N n.

Definition between (lo hi : N) (c : ascii) : bool :=
  (lo <=? ord c) && (ord c <=? hi).

(** [Py_UNICODE_ISSPACE]: what [str.strip()], [str.split()] and the regular
    expression class [\s] treat as white space. *)
Definition is_space (c : ascii) : bool :=
  between 9 13 c || between 28 32 c || (ord c =? 133) || (ord c =? 160).

(** [Py_UNICODE_ISLINEBREAK]: the line boundaries of [str.splitlines()]. *)
Definition is_linebreak (c : ascii) : bool :=
  between 10 13 c || between 28 30 c || (ord c =? 133).

(** [\w] of a [str] pattern: alphanumeric ([str.isalnum]) or underscore. *)
Definition is_word (c : ascii) : bool :=
  between 48 57 c || between 65 90 c || (ord c =? 95) || between 97 122 c
  || (ord c =? 170) || between 178 179 c || (ord c =? 181)
  || between 185 186 c || between 188 190 c
  || between 192 214 c || between 216 246 c || between 248 255 c.

(** The class [[\w\.-]] of the three patterns. *)
Definition is_domain_char (c : ascii) : bool :=
  is_word c || (ord c =? 46) || (ord c =? 45).

(** [str.lower()] on one code point. *)
Definition lower (c : ascii) : ascii :=
  if between 65 90 c || between 192 214 c || between 216 222 c
  then chr (ord c + 32) else c.

(** [str.upper()] on one code point, as the code points of the result:
    U+00DF upper-cases to the two letters SS, U+00B5 to U+039C and U+00FF to
    U+0178. *)
Definition upper (c : ascii) : list N :=
  if between 97 122 c || between 224 246 c || between 248 254 c
  then [ord c - 32]
  else if ord c =? 223 then [83; 83]
  else if ord c =? 181 then [924]
  else if ord c =? 255 then [376]
  else [ord c].

End Char.

(** ** The [str] methods the program calls *)

Module Str.

Fixpoint length (s : string) : nat :=
  match s with
  | "" => O
  | String _ s' => S (length s')
  end.

Fixpoint all (p : ascii → bool) (s : string) : bool :=
  match s with
  | "" => true
  | String c s' => p c && all p s'
  end.

Fixpoint take (n : nat) (s : string) : string :=
  match n, s with
  | S n', String c s' => String c (take n' s')
  | _, _ => ""
  end.

(** [s.lower()] *)
Fixpoint lower (s : string) : string :=
  match s with
  | "" => ""
  | String c s' => String (Char.lower c) (lower s')
  end.

(** [s.upper()], as the code points of the result. *)
Fixpoint upper (s : string) : list N :=
  match s with
  | "" => []
  | String c s' => Char.upper c ++ upper s'
  end.

(** [a < b] on two [str], given by their code points: the first code point
    that differs decides, and a proper prefix is smaller. *)
Fixpoint lt (a b : list N) : bool :=
  match a, b with
  | _, [] => false
  | [], _ :: _ => true
  | x :: a', y :: b' =>
      if (x <? y)%N then true else if (y <? x)%N then false else lt a' b'
  end.

(** [s.lstrip()] *)
Fixpoint lstrip (s : string) : string :=
  match s with
  | "" => ""
  | String c s' => if Char.is_space c then lstrip s' else s
  end.

(** [s.rstrip()] *)
Fixpoint rstrip (s : string) : string :=
  match s with
  | "" => ""
  | String c s' =>
      match rstrip s' with
      | "" => if Char.is_space c then "" else String c ""
      | r => String c r
      end
  end.

(** [s.strip()] *)
Definition strip (s : string) : string := rstrip (lstrip s).

(** [s.startswith(c)] for a one-character prefix. *)
Definition startswith_char (c : ascii) (s : string) : bool :=
  match s with
  | String c' _ => bool_decide (c' = c)
  | "" => false
  end.

(** [s.startswith((c1, ..., cn))] for a tuple of one-character prefixes. *)
Definition startswith_any (cs : list ascii) (s : string) : bool :=
  existsb (λ c, startswith_char c s) cs.

(** [s.splitlines()]: a carriage return directly followed by a line feed is
    one boundary; a final line boundary opens no further line. *)
Fixpoint splitlines (s : string) : list string :=
  match s with
  | "" => []
  | String c s' =>
      if Char.is_linebreak c then
        if (Char.ord c =? 13)%N && startswith_char (Char.chr 10) s'
        then splitlines s'
        else "" :: splitlines s'
      else
        match splitlines s' with
        | [] => [String c ""]
        | l :: ls => String c l :: ls
        end
  end.

(** The word that starts at the head of [s] (empty when [s] starts with
    white space) and the words after it. *)
Fixpoint split_from (s : string) : string * list string :=
  match s with
  | "" => ("", [])
  | String c s' =>
      let '(w, ws) := split_from s' in
      if Char.is_space c
      then ("", match w with "" => ws | _ => w :: ws end)
      else (String c w, ws)
  end.

(** [s.split()]: the maximal runs of characters that are not white space. *)
Definition split (s : string) : list string :=
  let '(w, ws) := split_from s in
  match w with "" => ws | _ => w :: ws end.

(** [s.split(",", 1)]: cut at the first comma, if there is one. *)
Fixpoint split_comma_1 (s : string) : list string :=
  match s with
  | "" => [""]
  | String c s' =>
      if (Char.ord c =? 44)%N then [""; s']
      else match split_comma_1 s' with
           | f :: fs => String c f :: fs
           | [] => [String c ""]
           end
  end.

End Str.

(** ** The fragment of [re] the three patterns use

    A pattern is run from a state (characters consumed so far, the rest of
    the subject, what group 1 holds) to the list of states in which it can
    end, in the order in which a backtracking matcher tries them: a greedy
    [+] offers its longest run first, an alternation its left branch first.
    [pattern.match(s)] is the first of them. *)

Module Re.

Inductive regex : Type :=
  | Eps
  | Bol                              (* ^ *)
  | Eol                              (* $ *)
  | Lit (c : ascii)                  (* one literal character *)
  | Plus (p : ascii → bool)          (* [class]+ , greedy *)
  | Seq (r1 r2 : regex)
  | Alt (r1 r2 : regex)              (* r1|r2 *)
  | Group (r : regex).               (* the capturing group, number 1 *)

Record state : Type := State {
  pos : nat;
  rest : string;
  group1 : option string
}.

Fixpoint plus_states (p : ascii → bool) (n : nat) (s : string)
    (g : option string) : list state :=
  match s with
  | String c s' =>
      if p c then plus_states p (S n) s' g ++ [State (S n) s' g] else []
  | "" => []
  end.

Fixpoint run (r : regex) (st : state) : list state :=
  match r with
  | Eps => [st]
  | Bol => if decide (pos st = 0%nat) then [st] else []
  | Eol =>
      match rest st with
      | "" => [st]
      | String c "" => if (Char.ord c =? 10)%N then [st] else []
      | _ => []
      end
  | Lit c =>
      match rest st with
      | String c' s' =>
          if decide (c' = c) then [State (S (pos st)) s' (group1 st)] else []
      | "" => []
      end
  | Plus p => plus_states p (pos st) (rest st) (group1 st)
  | Seq r1 r2 => st' ← run r1 st; run r2 st'
  | Alt r1 r2 => run r1 st ++ run r2 st
  | Group r =>
      (λ st', State (pos st') (rest st')
                (Some (Str.take (pos st' - pos st) (rest st)))) <$> run r st
  end.

(** [pattern.match(s)]: [None] when there is no match, else the match
    object, of which [group1] is [m.group(1)]. *)
Definition match_ (r : regex) (s : string) : option state :=
  head (run r (State 0 s None)).

(** The characters of [s], one after the other. *)
Fixpoint lits (s : string) : regex :=
  match s with
  | "" => Eps
  | String c s' => Seq (Lit c) (lits s')
  end.

End Re.

(** ** Exceptions *)

Inductive exn : Type :=
  | AttributeError
  | IndexError
  | ValueError
  | RequestException.

Inductive result (A : Type) : Type :=
  | Ok (a : A)
  | Raise (e : exn).
Arguments Ok {A} a.
Arguments Raise {A} e.

Definition bind {A B : Type} (m : result A) (f : A → result B) : result B :=
  match m with
  | Ok a => f a
  | Raise e => Raise e
  end.

Notation "x <-- m ;; k" := (bind m (λ x, k))
  (at level 100, m at next level, right associativity, only parsing).

(** A [for] loop over [l] whose body updates the loop state or raises. *)
Fixpoint for_each {S A : Type} (body : S → A → result S) (s : S)
    (l : list A) : result S :=
  match l with
  | [] => Ok s
  | x :: l' => s' <-- body s x;; for_each body s' l'
  end.

(** [m.group(1).lower()]: a group that took no part in the match is [None],
    which has no method [lower]. *)
Definition group1_lower (m : Re.state) : result string :=
  match Re.group1 m with
  | Some d => Ok (Str.lower d)
  | None => Raise AttributeError
  end.

(** [parts[0]] *)
Definition index0 {A : Type} (parts : list A) : result A :=
  match parts with
  | x :: _ => Ok x
  | [] => Raise IndexError
  end.

(** ** main.py, lines 33 to 89 *)

(** [Rule = Tuple[str, str]]: the rule type and the domain. *)
Definition Rule : Type := string * string.

(** [^(?:127\.0\.0\.1|0\.0\.0\.0)\s+([\w\.-]+)] *)
Definition HOSTS_PATTERN : Re.regex :=
  Re.Seq Re.Bol
   (Re.Seq (Re.Alt (Re.lits "127.0.0.1") (Re.lits "0.0.0.0"))
     (Re.Seq (Re.Plus Char.is_space)
             (Re.Group (Re.Plus Char.is_domain_char)))).

(** [^\|\|([\w\.-]+)\^] *)
Definition ADGUARD_PATTERN : Re.regex :=
  Re.Seq Re.Bol
   (Re.Seq (Re.lits "||")
     (Re.Seq (Re.Group (Re.Plus Char.is_domain_char))
             (Re.Lit "^"))).

(** [^([\w\.-]+\.[\w]+)$] *)
Definition RAW_DOMAIN_PATTERN : Re.regex :=
  Re.Seq Re.Bol
   (Re.Seq (Re.Group (Re.Seq (Re.Plus Char.is_domain_char)
                       (Re.Seq (Re.Lit ".") (Re.Plus Char.is_word))))
           Re.Eol).

(** The body of the loop of [parse_blocklist]: [rules] is the set built so
    far; a [continue] leaves it as it is. *)
Definition parse_line (rules : gset Rule) (line : string)
    : result (gset Rule) :=
  let line := Str.strip line in
  if bool_decide (line = "") || Str.startswith_any ["#"; "!"; "/"]%char line
  then Ok rules
  else
    match Re.match_ HOSTS_PATTERN line with
    | Some hosts_match =>
        domain <-- group1_lower hosts_match;;
        Ok ({[ ("full", domain) ]} ∪ rules)
    | None =>
        match Re.match_ ADGUARD_PATTERN line with
        | Some adguard_match =>
            domain <-- group1_lower adguard_match;;
            Ok ({[ ("domain", domain) ]} ∪ rules)
        | None =>
            let parts := Str.split line in
            match parts with
            | [] => Ok rules
            | _ =>
                part0 <-- index0 parts;;
                match Re.match_ RAW_DOMAIN_PATTERN part0 with
                | Some raw_domain_match =>
                    domain <-- group1_lower raw_domain_match;;
                    Ok ({[ ("domain", domain) ]} ∪ rules)
                | None => Ok rules
                end
            end
        end
    end.

Definition parse_blocklist (content : string) : result (gset Rule) :=
  for_each parse_line ∅ (Str.splitlines content).

(** ** Python's [dict]: keys in insertion order, one entry per key *)

Module Dict.

Definition t (V : Type) : Type := list (string * V).

(** [d[k] = v]: an existing key keeps its place, a new one goes last. *)
Fixpoint set {V : Type} (k : string) (v : V) (d : t V) : t V :=
  match d with
  | [] => [(k, v)]
  | (k', v') :: d' =>
      if decide (k' = k) then (k, v) :: d' else (k', v') :: set k v d'
  end.

(** [d.get(k)] *)
Fixpoint get {V : Type} (k : string) (d : t V) : option V :=
  match d with
  | [] => None
  | (k', v') :: d' => if decide (k' = k) then Some v' else get k d'
  end.

Definition keys {V : Type} (d : t V) : list string := d.*1.
Definition values {V : Type} (d : t V) : list V := d.*2.

End Dict.

(** ** The output schema *)

(** Modelled from the spec: the generated module [router_common_pb2] is not
    among the sources; its messages are taken from the specification's
    schema (a list of groups; a group is a label and a repeated domain rule;
    a domain rule is a kind and a string) and the four kinds from the names
    main.py uses. *)
Inductive Domain_Type : Type := Plain | Regex | RootDomain | Full.

(** Modelled from the spec: the message [router_common_pb2.Domain]. *)
Record Domain : Type := { type : Domain_Type; value : string }.

(** Modelled from the spec: the message [router_common_pb2.GeoSite]; the
    label is the [str] main.py assigns, as its code points. *)
Record GeoSite : Type := { country_code : list N; domain : list Domain }.

(** ** The log *)

Inductive level : Type := INFO | WARNING | ERROR.

Inductive message : Type :=
  | Failed_to_fetch (url : string)
  | Skipping_invalid_line (line : string)
  | Fetching_list (name url : string)
  | Parsed_rules (n : nat) (name : string)
  | Created_combined_list (n : nat).

(** ** main.py, lines 92 to 201 *)

Record run_state : Type := {
  blocklists : Dict.t (gset Rule);
  all_rules : gset Rule;
  requests : nat;                      (* requests made so far *)
  log : list (level * message)
}.

Definition logging (lv : level) (m : message) (st : run_state) : run_state :=
  {| blocklists := blocklists st; all_rules := all_rules st;
     requests := requests st; log := log st ++ [(lv, m)] |}.

(** [a, b = fields] *)
Definition unpack2 {A : Type} (fields : list A) : result (A * A) :=
  match fields with
  | [a; b] => Ok (a, b)
  | _ => Raise ValueError
  end.

Definition rule_type_map : Dict.t Domain_Type :=
  [("domain", RootDomain); ("full", Full); ("regexp", Regex);
   ("keyword", Plain)].

(** [for rule_type, value in rules]: CPython visits the elements of a set
    in the order of its hash table, which follows the hashes of the elements
    (for a [str], the hash seed of the process) and the insertions made; the
    language promises that every element is visited once, and no more.
    [iterate name rules] is the order in which the run visits the set
    [rules] of the group [name]. *)
Record set_iteration : Type := {
  iterate : string → gset Rule → list Rule;
  iterate_once : ∀ name rules, iterate name rules ≡ₚ elements rules
}.

(** The body of the loop over [blocklists.items()]. *)
Definition site_of (iteration : set_iteration) (item : string * gset Rule)
    : GeoSite :=
  let '(name, rules) := item in
  {| country_code := Str.upper name;
     domain := (λ '(rule_type, value),
                  {| type := default Plain (Dict.get rule_type rule_type_map);
                     value := value |}) <$> iterate iteration name rules |}.

(** [entry.sort(key=...)]: [list.sort] is stable and compares keys with [<];
    a stable sort's result does not depend on the algorithm, so insertion
    from the right stands for it. *)
Fixpoint insert_by {A : Type} (key : A → list N) (x : A) (l : list A)
    : list A :=
  match l with
  | [] => [x]
  | y :: l' =>
      if Str.lt (key y) (key x) then y :: insert_by key x l' else x :: l
  end.

Definition sort_by {A : Type} (key : A → list N) (l : list A) : list A :=
  foldr (insert_by key) [] l.

(** Lines 178 to 201: the [GeoSiteList] that is serialized. *)
Definition assemble (iteration : set_iteration) (d : Dict.t (gset Rule))
    : list GeoSite :=
  sort_by country_code (site_of iteration <$> d).

(** Lines 173 to 176. *)
Definition add_combined (st : run_state) : run_state :=
  if bool_decide (all_rules st ≠ ∅) then
    logging INFO (Created_combined_list (size (all_rules st)))
      {| blocklists := Dict.set "blocklists-all" (all_rules st) (blocklists st);
         all_rules := all_rules st;
         requests := requests st; log := log st |}
  else st.

Definition initial : run_state :=
  {| blocklists := []; all_rules := ∅; requests := 0; log := [] |}.

Section Main.

(** The network: what the [n]-th request of the run, for [url], returns;
    [None] when [requests.get] or [raise_for_status] raises. *)
Variable requests_get : nat → string → option string.

(** The order in which the run visits the rules of each group. *)
Variable iteration : set_iteration.

Definition fetch_blocklist (url : string) (st : run_state)
    : result string * run_state :=
  let st' := {| blocklists := blocklists st; all_rules := all_rules st;
                requests := S (requests st); log := log st |} in
  match requests_get (requests st) url with
  | Some text => (Ok text, st')
  | None => (Raise RequestException, logging ERROR (Failed_to_fetch url) st')
  end.

(** The body of the loop over the lines of the manifest. *)
Definition main_step (st : run_state) (line : string) : result run_state :=
  let line := Str.strip line in
  if bool_decide (line = "") || Str.startswith_char "#" line then Ok st
  else
    match unpack2 (Str.strip <$> Str.split_comma_1 line) with
    | Raise ValueError => Ok (logging WARNING (Skipping_invalid_line line) st)
    | Raise e => Raise e
    | Ok (name, url) =>
        let st := logging INFO (Fetching_list name url) st in
        match fetch_blocklist url st with
        | (Raise RequestException, st) => Ok st
        | (Raise e, _) => Raise e
        | (Ok content, st) =>
            rules <-- parse_blocklist content;;
            let st := logging INFO (Parsed_rules (size rules) name) st in
            Ok {| blocklists := Dict.set name rules (blocklists st);
                  all_rules := all_rules st ∪ rules;
                  requests := requests st; log := log st |}
        end
    end.

(** The catalogue when the manifest has been read (line 171). *)
Definition read_manifest (manifest : list string) : result run_state :=
  for_each main_step initial manifest.

(** The catalogue with the combined list (line 176). *)
Definition catalog (manifest : list string) : result run_state :=
  st <-- read_manifest manifest;; Ok (add_combined st).

(** [main], up to the value handed to [SerializeToString]. *)
Definition main (manifest : list string) : result (list GeoSite) :=
  st <-- catalog manifest;; Ok (assemble iteration (blocklists st)).

End Main.

(** * Definitions used to state the properties *)

(** ** Text *)

Definition no_space (s : string) : Prop :=
  Str.all (λ c, negb (Char.is_space c)) s = true.

Definition no_comma (s : string) : Prop :=
  Str.all (λ c, negb (Char.ord c =? 44)%N) s = true.

(** Lines of text, each closed by a line feed. *)
Definition unlines (lines : list string) : string :=
  foldr (λ l acc, l +:+ String (Char.chr 10) acc) "" lines.

(** The text before the last dot of [s] and the text after it; [None] when
    [s] has no dot ([s.rpartition(".")]). *)
Fixpoint rpartition_dot (s : string) : option (string * string) :=
  match s with
  | "" => None
  | String c s' =>
      match rpartition_dot s' with
      | Some (h, t) => Some (String c h, t)
      | None => if decide (c = "."%char) then Some ("", s') else None
      end
  end.

(** The words [RAW_DOMAIN_PATTERN] accepts, read off the pattern: cut at its
    last dot, the word has before it a run of one or more word characters,
    dots and hyphens, and after it a run of one or more word characters. *)
Definition raw_domain_shape (tok : string) : bool :=
  match rpartition_dot tok with
  | Some (h, tld) =>
      negb (bool_decide (h = "")) && Str.all Char.is_domain_char h
      && negb (bool_decide (tld = "")) && Str.all Char.is_word tld
  | None => false
  end.

(** The parts of a word between its dots ([tok.split(".")]). *)
Fixpoint labels (s : string) : list string :=
  match s with
  | "" => [""]
  | String c s' =>
      if decide (c = "."%char) then "" :: labels s'
      else match labels s' with
           | l :: ls => String c l :: ls
           | [] => [String c ""]
           end
  end.

(** The shape of a bare domain as the specification words it: labels
    separated by dots, two at least, each a run of one or more characters a
    label may hold.  The specification speaks of labels of word characters
    and gives [plain-domain.org] as a bare domain; which characters a label
    may hold is the parameter [label_char]. *)
Definition dot_separated_labels (label_char : ascii → bool) (tok : string)
    : bool :=
  bool_decide (2 ≤ length (labels tok))
  && forallb (λ l, negb (bool_decide (l = "")) && Str.all label_char l)
       (labels tok).

(** An upper-case letter among the code points up to U+00FF. *)
Definition capital (c : ascii) : bool :=
  Char.between 65 90 c || Char.between 192 214 c || Char.between 216 222 c.

Definition no_capital (s : string) : Prop :=
  Str.all (λ c, negb (capital c)) s = true.

(** The code points of a [str]. *)
Fixpoint code_points (s : string) : list N :=
  match s with
  | "" => []
  | String c s' => Char.ord c :: code_points s'
  end.

(** All comma-separated fields of a line ([line.split(",")]), as the
    specification reads a manifest line. *)
Fixpoint comma_fields (s : string) : list string :=
  match s with
  | "" => [""]
  | String c s' =>
      if (Char.ord c =? 44)%N then "" :: comma_fields s'
      else match comma_fields s' with
           | f :: fs => String c f :: fs
           | [] => [String c ""]
           end
  end.

(** ** Matching *)

(** The text a pattern consumes lies between the two states. *)
Definition consumed (w : string) (st st' : Re.state) : Prop :=
  Re.rest st = w +:+ Re.rest st' ∧ Re.pos st' = Re.pos st + Str.length w.

(** What stands in the group of [RAW_DOMAIN_PATTERN]. *)
Definition raw_body : Re.regex :=
  Re.Seq (Re.Plus Char.is_domain_char)
         (Re.Seq (Re.Lit ".") (Re.Plus Char.is_word)).

(** A run of one or more characters of the class [[\w\.-]]. *)
Definition domain_text (d : string) : Prop :=
  d ≠ "" ∧ Str.all Char.is_domain_char d = true.

(** ** Lines and rules *)

(** A line the loop of [parse_blocklist] skips at once: blank, or a comment. *)
Definition blank_or_comment (line : string) : bool :=
  bool_decide (Str.strip line = "")
  || Str.startswith_any ["#"; "!"; "/"]%char (Str.strip line).

(** A rule of kind [full] or [domain] whose domain is lower-cased domain
    text. *)
Definition canonical (r : Rule) : Prop :=
  (r.1 = "full" ∨ r.1 = "domain") ∧ ∃ d, domain_text d ∧ r.2 = Str.lower d.

(** ** The catalogue and the groups *)

(** The order of two elements by their sort keys, and of two groups by
    their labels: code point by code point. *)
Definition key_le {A : Type} (key : A → list N) (a b : A) : Prop :=
  Str.lt (key b) (key a) = false.

Definition label_le : relation GeoSite := key_le country_code.

(** The dictionary after the assignments [d[k] = v] of [l], in order. *)
Definition assign_all {V : Type} (d : Dict.t V) (l : list (string * V))
    : Dict.t V :=
  foldl (λ d kv, Dict.set kv.1 kv.2 d) d l.

(** The sources that were fetched and parsed, in the order of the manifest,
    each with its name and rule set; [n] requests were made before. *)
Fixpoint parsed_sources (requests_get : nat → string → option string)
    (n : nat) (manifest : list string) : list (string * gset Rule) :=
  match manifest with
  | [] => []
  | line :: manifest' =>
      let line := Str.strip line in
      if bool_decide (line = "") || Str.startswith_char "#" line
      then parsed_sources requests_get n manifest'
      else
        match unpack2 (Str.strip <$> Str.split_comma_1 line) with
        | Ok (name, url) =>
            match requests_get n url with
            | Some text =>
                match parse_blocklist text with
                | Ok rules =>
                    (name, rules)
                    :: parsed_sources requests_get (S n) manifest'
                | Raise _ => []
                end
            | None => parsed_sources requests_get (S n) manifest'
            end
        | Raise _ => parsed_sources requests_get n manifest'
        end
  end.

(** The rule set under the name of the combined list in the finished
    catalogue, if there is one. *)
Definition combined_group (requests_get : nat → string → option string)
    (manifest : list string) : option (gset Rule) :=
  match catalog requests_get manifest with
  | Ok st => Dict.get "blocklists-all" (blocklists st)
  | Raise _ => None
  end.

(** The rule sets of the groups the catalogue holds when the manifest has
    been read and the combined list is about to be added. *)
Definition groups_at_finalization
    (requests_get : nat → string → option string)
    (manifest : list string) : list (gset Rule) :=
  match read_manifest requests_get manifest with
  | Ok st0 => Dict.values (blocklists st0)
  | Raise _ => []
  end.

(** ** Five properties as the specification words them *)

(** The combined group is the union of the groups the catalogue holds when
    it is added. *)
Definition combined_is_union_of_groups
    (requests_get : nat → string → option string)
    (manifest : list string) : Prop :=
  combined_group requests_get manifest
  = Some (⋃ groups_at_finalization requests_get manifest).

(** Dictionaries with the same entries, filled in different orders,
    assemble to the same list, the rules of each group being visited in the
    same order both times. *)
Definition order_independent (d1 d2 : Dict.t (gset Rule)) : Prop :=
  NoDup (Dict.keys d1) → NoDup (Dict.keys d2) →
  (∀ k, Dict.get k d1 = Dict.get k d2) →
  ∀ iteration, assemble iteration d1 = assemble iteration d2.

(** The fallback gives the rule of a line exactly when the first word of
    the line is made of dot-separated labels. *)
Definition fallback_exactly_on_labels (label_char : ascii → bool)
    (rules : gset Rule) (line : string) : Prop :=
  blank_or_comment line = false →
  Re.match_ HOSTS_PATTERN (Str.strip line) = None →
  Re.match_ ADGUARD_PATTERN (Str.strip line) = None →
  ∀ tok, head (Str.split (Str.strip line)) = Some tok →
    parse_line rules line
    = (if dot_separated_labels label_char tok
       then Ok ({[ ("domain", Str.lower tok) ]} ∪ rules)
       else Ok rules).

(** The group a source brought under the name of the combined list is not
    in the finished catalogue. *)
Definition source_group_absent
    (requests_get : nat → string → option string)
    (manifest : list string) : Prop :=
  ∀ st0 rules,
    read_manifest requests_get manifest = Ok st0 →
    Dict.get "blocklists-all" (blocklists st0) = Some rules →
    ∃ st, catalog requests_get manifest = Ok st
      ∧ ("blocklists-all", rules) ∉ blocklists st.

(** A manifest line that does not split into exactly two comma-separated
    fields is skipped with a warning, and one that does is processed. *)
Definition two_fields_or_skipped
    (requests_get : nat → string → option string)
    (st : run_state) (line : string) : Prop :=
  Str.strip line ≠ "" → Str.startswith_char "#" (Str.strip line) = false →
  (length (comma_fields (Str.strip line)) ≠ 2 →
   main_step requests_get st line
   = Ok (logging WARNING (Skipping_invalid_line (Str.strip line)) st))
  ∧ (∀ name url,
       Str.strip <$> comma_fields (Str.strip line) = [name; url] →
       ∃ st', main_step requests_get st line = Ok st'
         ∧ requests st' = S (requests st)
         ∧ (INFO, Fetching_list name url) ∈ log st').

(** ** Networks, iteration orders and catalogues of the examples *)

(** Every set visited in the order of [elements], and in the opposite
    order. *)
Definition in_elements_order : set_iteration :=
  {| iterate := λ _ rules, elements rules;
     iterate_once := λ _ rules, Permutation_refl (elements rules) |}.

Definition in_reverse_order : set_iteration :=
  {| iterate := λ _ rules, reverse (elements rules);
     iterate_once := λ _ rules, reverse_Permutation (elements rules) |}.

(** A network that answers by address alone. *)
Definition pages (site : Dict.t string) : nat → string → option string :=
  λ _ url, Dict.get url site.

Definition two_pages : Dict.t string := [("u1", "x.com"); ("u2", "y.com")].

Definition two_lists : Dict.t string :=
  [("u1", unlines ["dom1.com"; "dom2.com"]);
   ("u2", unlines ["dom2.com"; "dom3.com"])].

Definition only_comments : Dict.t string := [("u1", "# nothing here")].

Definition named_like_combined : Dict.t string :=
  [("u1", "x.com"); ("u2", "0.0.0.0 y.com")].

(** The catalogue after the manifest [blocklists-all, u1] and [b,u2] on the
    network [named_like_combined]. *)
Definition named_like_combined_state : run_state :=
  {| blocklists := [("blocklists-all", {[ ("domain", "x.com") ]});
                    ("b", {[ ("full", "y.com") ]})];
     all_rules := {[ ("domain", "x.com"); ("full", "y.com") ]};
     requests := 2;
     log := [(INFO, Fetching_list "blocklists-all" "u1");
             (INFO, Parsed_rules 1 "blocklists-all");
             (INFO, Fetching_list "b" "u2");
             (INFO, Parsed_rules 1 "b")] |}.

Definition lower_a_first : Dict.t (gset Rule) :=
  [("a", {[ ("domain", "x.com") ]}); ("A", {[ ("domain", "y.com") ]})].

Definition upper_a_first : Dict.t (gset Rule) :=
  [("A", {[ ("domain", "y.com") ]}); ("a", {[ ("domain", "x.com") ]})].

Definition sites_b_a : Dict.t (gset Rule) :=
  [("b", {[ ("domain", "y.com") ]}); ("a", {[ ("domain", "x.com") ]})].

Definition sites_a_b : Dict.t (gset Rule) :=
  [("a", {[ ("domain", "x.com") ]}); ("b", {[ ("domain", "y.com") ]})].

Definition one_group_two_rules : Dict.t (gset Rule) :=
  [("a", {[ ("domain", "x.com"); ("domain", "y.com") ]})].

(** Two groups with the same label and the same entries, whatever the order
    of the entries in each. *)
Definition same_group (g1 g2 : GeoSite) : Prop :=
  country_code g1 = country_code g2 ∧ domain g1 ≡ₚ domain g2.

(** ** Definitions for the further properties *)

(** The longest prefix of [s] whose characters satisfy [p], and what follows
    it. *)
Fixpoint span (p : ascii → bool) (s : string) : string * string :=
  match s with
  | "" => ("", "")
  | String c s' =>
      if p c then let '(w, r) := span p s' in (String c w, r) else ("", s)
  end.

(** [s] without the prefix [pre]; [None] when [s] does not start with it. *)
Fixpoint strip_prefix (pre s : string) : option string :=
  match pre, s with
  | "", _ => Some s
  | String c pre', String c' s' =>
      if decide (c' = c) then strip_prefix pre' s' else None
  | String _ _, "" => None
  end.

(** Text that does not start with a character of the class [p]. *)
Definition not_starting_with (p : ascii → bool) (s : string) : Prop :=
  match s with
  | String c _ => p c = false
  | "" => True
  end.

(** What [HOSTS_PATTERN] has after the address: [\s+([\w\.-]+)]. *)
Definition hosts_tail : Re.regex :=
  Re.Seq (Re.Plus Char.is_space) (Re.Group (Re.Plus Char.is_domain_char)).

(** The shape of a line in the hosts-file dialect: one of the two
    addresses, white space, the domain, and anything after it. *)
Definition hosts_shape (line ip ws d tail : string) : Prop :=
  line = ip +:+ ws +:+ d +:+ tail
  ∧ (ip = "127.0.0.1" ∨ ip = "0.0.0.0")
  ∧ ws ≠ "" ∧ Str.all Char.is_space ws = true
  ∧ domain_text d
  ∧ not_starting_with Char.is_domain_char tail.

(** What [ADGUARD_PATTERN] has after the two bars: [([\w\.-]+)\^]. *)
Definition adguard_tail : Re.regex :=
  Re.Seq (Re.Group (Re.Plus Char.is_domain_char)) (Re.Lit "^").

(** The shape of a line in the ad-blocking dialect: two bars, the domain,
    a caret, and anything after it. *)
Definition adguard_shape (line d tail : string) : Prop :=
  line = "||" +:+ d +:+ String "^" tail ∧ domain_text d.

(** The entry the loop over the rules of a group makes of one rule. *)
Definition entry_of (rule : Rule) : Domain :=
  {| type := default Plain (Dict.get rule.1 rule_type_map); value := rule.2 |}.

(** A manifest line the loop passes over: blank, or starting with [#]. *)
Definition manifest_comment (line : string) : bool :=
  bool_decide (Str.strip line = "") || Str.startswith_char "#" (Str.strip line).

(** A manifest line with a comma: a name and an address. *)
Definition is_source_line (line : string) : bool :=
  negb (manifest_comment line)
  && negb (Str.all (λ c, negb (Char.ord c =? 44)%N) (Str.strip line)).

(** A manifest line that is neither passed over nor has a comma. *)
Definition is_invalid_line (line : string) : bool :=
  negb (manifest_comment line)
  && Str.all (λ c, negb (Char.ord c =? 44)%N) (Str.strip line).

#[global] Instance level_eq_dec : EqDecision level.
Proof. solve_decision. Defined.

(** The number of records of level [lv] in a log. *)
Definition count_level (lv : level) (l : list (level * message)) : nat :=
  length (filter (λ e, e.1 = lv) l).

(** ** Tactics *)

(** The 256 code points, one by one. *)
Ltac by_cases_on_char c :=
  destruct c as [[] [] [] [] [] [] [] []]; vm_compute; congruence.

(** Closes [x = v] for closed [x] by evaluating [x] in the virtual machine. *)
Ltac vm_refl :=
  lazymatch goal with |- _ = ?v => vm_cast_no_check (eq_refl v) end.

(** * Properties *)

(** ** Code points *)

Lemma lower_lower c : Char.lower (Char.lower c) = Char.lower c.
Proof. by_cases_on_char c. Qed.

Lemma domain_char_lower c :
  Char.is_domain_char c = true → Char.is_domain_char (Char.lower c) = true.
Proof. by_cases_on_char c. Qed.

Lemma domain_char_not_space c :
  Char.is_domain_char c = true → Char.is_space c = false.
Proof. by_cases_on_char c. Qed.

Lemma word_domain_char c :
  Char.is_word c = true → Char.is_domain_char c = true.
Proof. by_cases_on_char c. Qed.

Lemma word_not_dot c : Char.is_word c = true → c ≠ "."%char.
Proof. by_cases_on_char c. Qed.

Lemma linefeed_is_space c : (Char.ord c =? 10)%N = true → Char.is_space c = true.
Proof. by_cases_on_char c. Qed.

(** ** Strings *)

Lemma app_cons c s t : String c s +:+ t = String c (s +:+ t).
Proof. reflexivity. Qed.

Lemma app_empty_l t : "" +:+ t = t.
Proof. reflexivity. Qed.

Lemma app_empty_r s : s +:+ "" = s.
Proof. induction s as [|c s IH]; [done|]. by rewrite app_cons, IH. Qed.

Lemma app_assoc' s t u : (s +:+ t) +:+ u = s +:+ t +:+ u.
Proof. induction s as [|c s IH]; [done|]. by rewrite !app_cons, IH. Qed.

Lemma app_eq_empty s t : s +:+ t = "" → s = "" ∧ t = "".
Proof. destruct s; [done|]. by rewrite app_cons. Qed.

Lemma length_app s t : Str.length (s +:+ t) = Str.length s + Str.length t.
Proof. induction s as [|c s IH]; [done|]. rewrite app_cons. simpl. by rewrite IH. Qed.

Lemma take_app w x : Str.take (Str.length w) (w +:+ x) = w.
Proof. induction w as [|c w IH]; [by destruct x|]. rewrite app_cons. simpl. by rewrite IH. Qed.

Lemma all_app p s t : Str.all p (s +:+ t) = Str.all p s && Str.all p t.
Proof.
  induction s as [|c s IH]; [done|].
  rewrite app_cons. simpl. rewrite IH. by destruct (p c).
Qed.

Lemma all_impl (p q : ascii → bool) s :
  (∀ c, p c = true → q c = true) → Str.all p s = true → Str.all q s = true.
Proof.
  intros Hpq. induction s as [|c s IH]; [done|]. simpl.
  intros [Hc Hs]%andb_true_iff. by rewrite (Hpq _ Hc), IH.
Qed.

Lemma lower_idem s : Str.lower (Str.lower s) = Str.lower s.
Proof. induction s as [|c s IH]; [done|]. simpl. by rewrite lower_lower, IH. Qed.

Lemma lower_eq_empty s : Str.lower s = "" → s = "".
Proof. by destruct s. Qed.

Lemma lower_not_capital c : capital (Char.lower c) = false.
Proof. by_cases_on_char c. Qed.

Lemma lower_no_capital s : no_capital (Str.lower s).
Proof.
  unfold no_capital. induction s as [|c s IH]; [done|]. simpl.
  by rewrite lower_not_capital, IH.
Qed.

Lemma all_domain_lower s :
  Str.all Char.is_domain_char s = true →
  Str.all Char.is_domain_char (Str.lower s) = true.
Proof.
  induction s as [|c s IH]; [done|]. cbn [Str.all Str.lower].
  intros [Hc Hs]%andb_true_iff. by rewrite domain_char_lower, IH.
Qed.

Lemma rstrip_no_space s :
  Str.all (λ c, negb (Char.is_space c)) s = true → Str.rstrip s = s.
Proof.
  induction s as [|c s IH]; [done|]. simpl.
  intros [Hc Hs]%andb_true_iff. rewrite (IH Hs).
  destruct s; [|done]. by destruct (Char.is_space c).
Qed.

Lemma lstrip_no_space s :
  Str.all (λ c, negb (Char.is_space c)) s = true → Str.lstrip s = s.
Proof.
  destruct s as [|c s]; [done|]. simpl.
  intros [Hc Hs]%andb_true_iff. by destruct (Char.is_space c).
Qed.

Lemma strip_no_space s :
  Str.all (λ c, negb (Char.is_space c)) s = true → Str.strip s = s.
Proof.
  intros H. unfold Str.strip. by rewrite (lstrip_no_space _ H), rstrip_no_space.
Qed.

Lemma all_domain_no_space s :
  Str.all Char.is_domain_char s = true →
  Str.all (λ c, negb (Char.is_space c)) s = true.
Proof.
  apply all_impl. intros c Hc. by rewrite (domain_char_not_space _ Hc).
Qed.

(** ** The matcher *)

Lemma run_seq r1 r2 st st' :
  st' ∈ Re.run (Re.Seq r1 r2) st ↔
  ∃ st1, st1 ∈ Re.run r1 st ∧ st' ∈ Re.run r2 st1.
Proof.
  simpl. rewrite list_elem_of_bind. naive_solver.
Qed.

Lemma run_bol st st' :
  st' ∈ Re.run Re.Bol st ↔ Re.pos st = 0 ∧ st' = st.
Proof.
  simpl. destruct (decide _); rewrite ?list_elem_of_singleton, ?elem_of_nil;
    naive_solver.
Qed.

Lemma run_lit c st st' :
  st' ∈ Re.run (Re.Lit c) st ↔
  Re.rest st = String c (Re.rest st') ∧ Re.pos st' = S (Re.pos st)
  ∧ Re.group1 st' = Re.group1 st.
Proof.
  destruct st as [n s g], st' as [n' s' g']. simpl.
  destruct s as [|c' s]; [rewrite elem_of_nil; naive_solver|].
  destruct (decide _) as [->|];
    rewrite ?list_elem_of_singleton, ?elem_of_nil; naive_solver.
Qed.

Lemma run_eol st st' :
  st' ∈ Re.run Re.Eol st →
  st' = st ∧ (Re.rest st = "" ∨
              ∃ c, Re.rest st = String c "" ∧ Char.is_space c = true).
Proof.
  simpl. destruct (Re.rest st) as [|c [|c' s]] eqn:E.
  - intros ->%list_elem_of_singleton. auto.
  - destruct (Char.ord c =? 10)%N eqn:Hc.
    + intros ->%list_elem_of_singleton. split; [done|]. right.
      exists c. split; [done|]. by apply linefeed_is_space.
    + by intros ?%elem_of_nil.
  - by intros ?%elem_of_nil.
Qed.

Lemma run_eol_end st : Re.rest st = "" → st ∈ Re.run Re.Eol st.
Proof. simpl. intros ->. by apply list_elem_of_singleton. Qed.

Lemma plus_states_elem p n s g st :
  st ∈ Re.plus_states p n s g ↔
  ∃ w, w ≠ "" ∧ Str.all p w = true ∧ s = w +:+ Re.rest st
       ∧ Re.pos st = n + Str.length w ∧ Re.group1 st = g.
Proof.
  revert n. induction s as [|c s IH]; intros n; simpl.
  - rewrite elem_of_nil. split; [done|].
    intros (w & Hw & _ & E & _). symmetry in E.
    by apply app_eq_empty in E as [? _].
  - destruct (p c) eqn:Hc.
    + rewrite elem_of_app, IH, list_elem_of_singleton. split.
      * intros [(w & Hw & Hall & -> & Hpos & Hg) | ->].
        -- exists (String c w). simpl. rewrite Hc, Hall.
           repeat split; [done|lia|done].
        -- exists (String c ""). simpl. rewrite Hc.
           repeat split; [done|lia].
      * intros ([|c' w] & Hw & Hall & E & Hpos & Hg); [done|].
        rewrite app_cons in E. simplify_eq/=.
        apply andb_true_iff in Hall as [_ Hall].
        destruct w as [|c'' w].
        -- right. destruct st as [n' s' g']. simpl in *.
           f_equal; lia.
        -- left. exists (String c'' w). repeat split; [done|done|lia].
    + rewrite elem_of_nil. split; [done|].
      intros ([|c' w] & Hw & Hall & E & _); [done|].
      rewrite app_cons in E. simplify_eq/=. by rewrite Hc in Hall.
Qed.

Lemma run_plus p st st' :
  st' ∈ Re.run (Re.Plus p) st ↔
  ∃ w, w ≠ "" ∧ Str.all p w = true ∧ Re.rest st = w +:+ Re.rest st'
       ∧ Re.pos st' = Re.pos st + Str.length w
       ∧ Re.group1 st' = Re.group1 st.
Proof. apply plus_states_elem. Qed.

Lemma run_group r st st' :
  st' ∈ Re.run (Re.Group r) st ↔
  ∃ st1, st1 ∈ Re.run r st ∧ Re.pos st' = Re.pos st1
         ∧ Re.rest st' = Re.rest st1
         ∧ Re.group1 st' =
             Some (Str.take (Re.pos st1 - Re.pos st) (Re.rest st)).
Proof.
  simpl. rewrite list_elem_of_fmap. split.
  - intros (st1 & -> & H). eauto.
  - intros (st1 & H & E1 & E2 & E3). exists st1. split; [|done].
    destruct st'. simpl in *. by subst.
Qed.

Lemma run_group_consumed w st st1 st' :
  consumed w st st1 →
  Re.pos st' = Re.pos st1 → Re.rest st' = Re.rest st1 →
  Re.group1 st' = Some (Str.take (Re.pos st1 - Re.pos st) (Re.rest st)) →
  Re.group1 st' = Some w ∧ consumed w st st'.
Proof.
  intros [E1 E2] Hp Hr ->. split.
  - rewrite E1, E2. replace (_ + _ - _) with (Str.length w) by lia.
    by rewrite take_app.
  - split; congruence.
Qed.

(** What group 1 of [([\w\.-]+)] holds. *)
Lemma run_group_plus p st st' :
  st' ∈ Re.run (Re.Group (Re.Plus p)) st →
  ∃ w, w ≠ "" ∧ Str.all p w = true ∧ Re.group1 st' = Some w
       ∧ consumed w st st'.
Proof.
  intros (st1 & (w & Hw & Hall & E & Hpos & _)%run_plus & Hp & Hr & Hg)
    %run_group.
  exists w. repeat split; try done;
    by eapply (run_group_consumed w st st1 st').
Qed.

Lemma run_raw_body st st' :
  st' ∈ Re.run raw_body st ↔
  ∃ x y, x ≠ "" ∧ Str.all Char.is_domain_char x = true
         ∧ y ≠ "" ∧ Str.all Char.is_word y = true
         ∧ consumed (x +:+ String "." y) st st'
         ∧ Re.group1 st' = Re.group1 st.
Proof.
  unfold raw_body, consumed. rewrite run_seq. split.
  - intros (st1 & (x & Hx & Hax & Ex & Hpx & Hgx)%run_plus
                & (st2 & (Ed & Hpd & Hgd)%run_lit
                       & (y & Hy & Hay & Ey & Hpy & Hgy)%run_plus)%run_seq).
    exists x, y. repeat split; try done.
    + by rewrite Ex, Ed, Ey, app_assoc', app_cons.
    + rewrite length_app. simpl. lia.
    + congruence.
  - intros (x & y & Hx & Hax & Hy & Hay & [E Hp] & Hg).
    exists (Re.State (Re.pos st + Str.length x)
              (String "." y +:+ Re.rest st') (Re.group1 st)).
    split.
    + apply run_plus. exists x. simpl. by rewrite <-app_assoc'.
    + apply run_seq.
      exists (Re.State (S (Re.pos st + Str.length x))
                (y +:+ Re.rest st') (Re.group1 st)).
      split; [by apply run_lit|].
      apply run_plus. exists y. simpl. repeat split; try done.
      rewrite Hp, length_app. simpl. lia.
Qed.

(** ** The three patterns *)

Lemma hosts_group line m :
  Re.match_ HOSTS_PATTERN line = Some m →
  ∃ d, Re.group1 m = Some d ∧ domain_text d.
Proof.
  intros Hm%head_Some_elem_of. unfold HOSTS_PATTERN in Hm.
  apply run_seq in Hm as (st1 & _ & Hm).
  apply run_seq in Hm as (st2 & _ & Hm).
  apply run_seq in Hm as (st3 & _ & Hm).
  apply run_group_plus in Hm as (d & Hd & Hall & Hg & _).
  by exists d.
Qed.

Lemma adguard_group line m :
  Re.match_ ADGUARD_PATTERN line = Some m →
  ∃ d, Re.group1 m = Some d ∧ domain_text d.
Proof.
  intros Hm%head_Some_elem_of. unfold ADGUARD_PATTERN in Hm.
  apply run_seq in Hm as (st1 & _ & Hm).
  apply run_seq in Hm as (st2 & _ & Hm).
  apply run_seq in Hm as (st3 & Hg & (_ & _ & Hm)%run_lit).
  apply run_group_plus in Hg as (d & Hd & Hall & Hg & _).
  exists d. split; [congruence|done].
Qed.

Lemma raw_pattern_elem tok m :
  m ∈ Re.run RAW_DOMAIN_PATTERN (Re.State 0 tok None) ↔
  ∃ x y, x ≠ "" ∧ Str.all Char.is_domain_char x = true
         ∧ y ≠ "" ∧ Str.all Char.is_word y = true
         ∧ tok = (x +:+ String "." y) +:+ Re.rest m
         ∧ Re.pos m = Str.length (x +:+ String "." y)
         ∧ Re.group1 m = Some (x +:+ String "." y)
         ∧ m ∈ Re.run Re.Eol m.
Proof.
  change RAW_DOMAIN_PATTERN
    with (Re.Seq Re.Bol (Re.Seq (Re.Group raw_body) Re.Eol)).
  split.
  - intros (st1 & [_ ->]%run_bol
                & (st2 & (st3 & Hb & Hp & Hr & Hg)%run_group & He)%run_seq)
      %run_seq.
    apply run_raw_body in Hb as (x & y & Hx & Hax & Hy & Hay & Hc & _).
    destruct (run_group_consumed _ _ _ _ Hc Hp Hr Hg) as [Hg2 [E1 E2]].
    pose proof (run_eol _ _ He) as [-> _]. simpl in *.
    exists x, y. repeat split; done.
  - intros (x & y & Hx & Hax & Hy & Hay & E & Hp & Hg & He).
    apply run_seq. exists (Re.State 0 tok None). split; [by apply run_bol|].
    apply run_seq. exists m. split; [|done].
    apply run_group. exists (Re.State (Re.pos m) (Re.rest m) None).
    split; [|simpl; repeat split].
    + apply run_raw_body. exists x, y. by repeat split.
    + rewrite Hg, Hp, E, Nat.sub_0_r. by rewrite take_app.
Qed.

Lemma raw_group tok m :
  Re.match_ RAW_DOMAIN_PATTERN tok = Some m →
  ∃ d, Re.group1 m = Some d ∧ domain_text d.
Proof.
  intros Hm%head_Some_elem_of.
  apply raw_pattern_elem in Hm
    as (x & y & Hx & Hax & Hy & Hay & E & Hp & Hg & He).
  exists (x +:+ String "." y). split; [done|]. split.
  - intros [-> _]%app_eq_empty. done.
  - rewrite all_app, Hax. simpl.
    by rewrite (all_impl _ _ _ word_domain_char Hay).
Qed.

(** ** [parse_line] and [parse_blocklist] return *)

Lemma group1_lower_ok m d :
  Re.group1 m = Some d → group1_lower m = Ok (Str.lower d).
Proof. unfold group1_lower. by intros ->. Qed.

(** Each turn of the loop either leaves the set alone or adds one rule of
    kind [full] or [domain] whose domain is lower-cased domain text. *)
Lemma parse_line_cases rules line :
  parse_line rules line = Ok rules
  ∨ ∃ kind d, (kind = "full" ∨ kind = "domain") ∧ domain_text d
      ∧ parse_line rules line = Ok ({[ (kind, Str.lower d) ]} ∪ rules).
Proof.
  unfold parse_line.
  destruct (_ || _); [by left|].
  destruct (Re.match_ HOSTS_PATTERN _) as [m|] eqn:Hh.
  { apply hosts_group in Hh as (d & Hg & Hd). right. exists "full", d.
    rewrite (group1_lower_ok _ _ Hg). auto. }
  destruct (Re.match_ ADGUARD_PATTERN _) as [m|] eqn:Ha.
  { apply adguard_group in Ha as (d & Hg & Hd). right. exists "domain", d.
    rewrite (group1_lower_ok _ _ Hg). auto. }
  destruct (Str.split _) as [|part0 parts]; [by left|]. simpl.
  destruct (Re.match_ RAW_DOMAIN_PATTERN _) as [m|] eqn:Hr; [|by left].
  apply raw_group in Hr as (d & Hg & Hd). right. exists "domain", d.
  rewrite (group1_lower_ok _ _ Hg). auto.
Qed.

Lemma parse_line_ok rules line : ∃ rules', parse_line rules line = Ok rules'.
Proof.
  destruct (parse_line_cases rules line) as [?|(?&?&_&_&?)]; eauto.
Qed.

Lemma for_each_ok {S A} (body : S → A → result S) (l : list A) :
  (∀ s x, ∃ s', body s x = Ok s') →
  ∀ s, ∃ s', for_each body s l = Ok s'.
Proof.
  intros Hbody. induction l as [|x l IH]; intros s; simpl; [eauto|].
  destruct (Hbody s x) as [s' ->]. simpl. apply IH.
Qed.

(** An invariant of the loop state holds when the loop has returned. *)
Lemma for_each_invariant {S A} (I : S → Prop) (body : S → A → result S) l :
  (∀ s x s', I s → body s x = Ok s' → I s') →
  ∀ s s', I s → for_each body s l = Ok s' → I s'.
Proof.
  intros Hbody. induction l as [|x l IH]; intros s s' Hs; simpl.
  - by intros [= <-].
  - destruct (body s x) as [s1|] eqn:E; [|done]. simpl. eauto.
Qed.

(** ** White space: [strip] and [split] *)

Lemma lstrip_head s :
  Str.lstrip s = "" ∨ ∃ c t, Str.lstrip s = String c t ∧ Char.is_space c = false.
Proof.
  induction s as [|c s IH]; [by left|]. simpl.
  destruct (Char.is_space c) eqn:Hc; [done|]. right. eauto.
Qed.

Lemma rstrip_head c t :
  Char.is_space c = false → ∃ t', Str.rstrip (String c t) = String c t'.
Proof. intros Hc. simpl. rewrite Hc. destruct (Str.rstrip t); eauto. Qed.

Lemma strip_head s :
  Str.strip s = "" ∨ ∃ c t, Str.strip s = String c t ∧ Char.is_space c = false.
Proof.
  unfold Str.strip. destruct (lstrip_head s) as [->|(c & t & -> & Hc)].
  - by left.
  - right. destruct (rstrip_head c t Hc) as [t' ->]. eauto.
Qed.

(** The first word of [split_from]: the longest prefix free of white space. *)
Lemma split_from_first s :
  ∃ tail, s = (Str.split_from s).1 +:+ tail
          ∧ no_space (Str.split_from s).1
          ∧ (tail = "" ∨ ∃ c t, tail = String c t ∧ Char.is_space c = true).
Proof.
  induction s as [|c s (tail & E & Hns & Ht)]; simpl.
  - exists "". repeat split; auto.
  - destruct (Str.split_from s) as [w ws]. simpl in *.
    destruct (Char.is_space c) eqn:Hc; simpl.
    + exists (String c s). split; [done|]. split; [done|]. eauto.
    + exists tail. rewrite app_cons, <-E. split; [done|]. split; [|done].
      unfold no_space in *. simpl. by rewrite Hc, Hns.
Qed.

(** The first word [split] returns for text that starts with a character
    that is not white space. *)
Lemma split_first c t :
  Char.is_space c = false →
  ∃ tok parts tail,
    Str.split (String c t) = tok :: parts
    ∧ String c t = tok +:+ tail ∧ no_space tok ∧ tok ≠ ""
    ∧ (tail = "" ∨ ∃ c' t', tail = String c' t' ∧ Char.is_space c' = true).
Proof.
  intros Hc. destruct (split_from_first (String c t)) as (tail & E & Hns & Ht).
  unfold Str.split. simpl in *.
  destruct (Str.split_from t) as [w ws]. rewrite Hc in *. simpl in *.
  exists (String c w), ws, tail. done.
Qed.

(** ** The raw-domain pattern on one word *)

Lemma rpartition_dot_app x y :
  Str.all Char.is_word y = true →
  rpartition_dot (x +:+ String "." y) = Some (x, y).
Proof.
  intros Hy.
  assert (rpartition_dot y = None) as Hnone.
  { induction y as [|c y IH]; [done|]. simpl in *.
    apply andb_true_iff in Hy as [Hc Hy]. rewrite (IH Hy).
    destruct (decide _) as [->|]; [|done]. by apply word_not_dot in Hc. }
  induction x as [|c x IH].
  - rewrite app_empty_l. simpl. by rewrite Hnone.
  - rewrite app_cons. simpl. by rewrite IH.
Qed.

Lemma rpartition_dot_Some s h t :
  rpartition_dot s = Some (h, t) → s = h +:+ String "." t.
Proof.
  revert h. induction s as [|c s IH]; intros h; [done|]. simpl.
  destruct (rpartition_dot s) as [[h' t']|].
  - intros [= <- <-]. by rewrite app_cons, <-(IH h').
  - destruct (decide _) as [->|]; [|done]. by intros [= <- <-].
Qed.

Lemma raw_domain_shape_iff tok :
  raw_domain_shape tok = true ↔
  ∃ x y, x ≠ "" ∧ Str.all Char.is_domain_char x = true
         ∧ y ≠ "" ∧ Str.all Char.is_word y = true
         ∧ tok = x +:+ String "." y.
Proof.
  unfold raw_domain_shape. split.
  - destruct (rpartition_dot tok) as [[h t]|] eqn:E; [|done].
    apply rpartition_dot_Some in E.
    rewrite !andb_true_iff, !negb_true_iff, !bool_decide_eq_false.
    intros [[[? ?] ?] ?]. by exists h, t.
  - intros (x & y & Hx & Hax & Hy & Hay & ->).
    rewrite (rpartition_dot_app _ _ Hay), Hax, Hay.
    by rewrite !bool_decide_eq_false_2.
Qed.

(** The shape at its edges: something must stand before the last dot, be it
    a dot or a hyphen; the final label takes no hyphen. *)
Example raw_domain_shape_edges :
  raw_domain_shape "plain-domain.org" = true
  ∧ raw_domain_shape "..com" = true
  ∧ raw_domain_shape "-.a" = true
  ∧ raw_domain_shape ".com" = false
  ∧ raw_domain_shape "a.co-m" = false
  ∧ raw_domain_shape "localhost" = false
  ∧ raw_domain_shape "http://example.com/path" = false.
Proof. repeat split; vm_compute; reflexivity. Qed.

(** Words with an empty label, or with a hyphen in a label, are not made of
    labels of word characters; the pattern accepts some of them. *)
Example dot_separated_labels_edges :
  dot_separated_labels Char.is_word "ads.example.com" = true
  ∧ dot_separated_labels Char.is_word "localhost" = false
  ∧ dot_separated_labels Char.is_word "..com" = false
  ∧ dot_separated_labels Char.is_word "a..b" = false
  ∧ dot_separated_labels Char.is_word "-.a" = false
  ∧ dot_separated_labels Char.is_word "plain-domain.org" = false
  ∧ dot_separated_labels Char.is_domain_char "..com" = false.
Proof. repeat split; vm_compute; reflexivity. Qed.

Lemma labels_nonempty s : labels s ≠ [].
Proof.
  destruct s as [|c s]; simpl; [done|].
  destruct (decide _); [done|]. by destruct (labels s).
Qed.

(** Labels of word characters: what stands before the last dot and what
    stands after it. *)
Lemma labels_rpartition_dot s :
  ∀ l ls,
    labels s = l :: ls →
    Str.all Char.is_word l = true →
    forallb (λ l', negb (bool_decide (l' = "")) && Str.all Char.is_word l')
      ls = true →
    match ls with
    | [] => rpartition_dot s = None ∧ s = l
    | _ :: _ =>
        ∃ h tld, rpartition_dot s = Some (h, tld)
          ∧ Str.all Char.is_domain_char h = true
          ∧ tld ≠ "" ∧ Str.all Char.is_word tld = true
          ∧ (l ≠ "" → h ≠ "")
    end.
Proof.
  induction s as [|c s IH]; intros l ls; simpl.
  { by intros [= <- <-] _ _. }
  destruct (decide (c = "."%char)) as [->|Hc].
  - intros [= <- <-] _. destruct (labels s) as [|l' ls'] eqn:El.
    { by apply labels_nonempty in El. }
    cbn [forallb]. rewrite !andb_true_iff, negb_true_iff, bool_decide_eq_false.
    intros [[Hne Hl'] Hls'].
    specialize (IH l' ls' eq_refl Hl' Hls').
    destruct ls' as [|l'' ls'].
    + destruct IH as [-> ->]. by exists "", l'.
    + destruct IH as (h & tld & -> & Hh & Htld & Hw & _).
      exists (String "." h), tld. by split_and!.
  - destruct (labels s) as [|l' ls'] eqn:El.
    { by apply labels_nonempty in El. }
    intros [= <- <-]. simpl. intros [Hcw Hl']%andb_true_iff Hls'.
    specialize (IH l' ls' eq_refl Hl' Hls').
    destruct ls' as [|l'' ls'].
    + by destruct IH as [-> ->].
    + destruct IH as (h & tld & -> & Hh & Htld & Hw & _).
      exists (String c h), tld. split_and!; try done.
      simpl. by rewrite (word_domain_char c Hcw), Hh.
Qed.

(** A word made of two or more labels of word characters is one the
    pattern accepts. *)
Lemma dot_separated_labels_shape tok :
  dot_separated_labels Char.is_word tok = true → raw_domain_shape tok = true.
Proof.
  unfold dot_separated_labels, raw_domain_shape.
  destruct (labels tok) as [|l [|l' ls]] eqn:El; [done|done|].
  intros [_ H]%andb_true_iff. cbn [forallb] in H.
  apply andb_true_iff in H as [[Hne Hl]%andb_true_iff Hls].
  apply negb_true_iff, bool_decide_eq_false in Hne.
  destruct (labels_rpartition_dot tok l (l' :: ls) El Hl Hls)
    as (h & tld & -> & Hh & Htld & Hw & Hhne).
  rewrite Hh, Hw, !bool_decide_eq_false_2; auto.
Qed.

Lemma no_space_app_inv s c :
  no_space (s +:+ String c "") → Char.is_space c = false.
Proof.
  unfold no_space. rewrite all_app. simpl.
  intros [_ H]%andb_true_iff. by destruct (Char.is_space c).
Qed.

(** On a word, the pattern matches exactly the shape, and group 1 is then
    the whole word. *)
Lemma raw_match_word tok :
  no_space tok →
  match Re.match_ RAW_DOMAIN_PATTERN tok with
  | Some m => raw_domain_shape tok = true ∧ Re.group1 m = Some tok
  | None => raw_domain_shape tok = false
  end.
Proof.
  intros Hns. destruct (Re.match_ _ _) as [m|] eqn:Hm.
  - apply head_Some_elem_of, raw_pattern_elem in Hm
      as (x & y & Hx & Hax & Hy & Hay & E & Hp & Hg & He).
    apply run_eol in He as [_ [Hr|(c & Hr & Hc)]]; rewrite Hr in E.
    + rewrite app_empty_r in E. subst tok. split; [|done].
      apply raw_domain_shape_iff. by exists x, y.
    + subst tok. apply no_space_app_inv in Hns. congruence.
  - apply not_true_is_false.
    intros (x & y & Hx & Hax & Hy & Hay & ->)%raw_domain_shape_iff.
    apply head_None in Hm.
    assert (Re.State (Str.length (x +:+ String "." y)) ""
              (Some (x +:+ String "." y))
            ∈ Re.run RAW_DOMAIN_PATTERN
                (Re.State 0 (x +:+ String "." y) None)) as Hin.
    { apply raw_pattern_elem. exists x, y. simpl.
      rewrite app_empty_r. repeat split; try done.
      by apply list_elem_of_singleton. }
    rewrite Hm in Hin. by apply elem_of_nil in Hin.
Qed.

(** ** What one line contributes *)

(** The loop body adds to [rules] what it adds to the empty set. *)
Lemma parse_line_mono rules line :
  parse_line rules line = (s <-- parse_line ∅ line;; Ok (s ∪ rules)).
Proof.
  unfold parse_line.
  destruct (_ || _); simpl; [f_equal; set_solver|].
  destruct (Re.match_ HOSTS_PATTERN _) as [m|].
  { destruct (group1_lower m); simpl; [f_equal; set_solver|done]. }
  destruct (Re.match_ ADGUARD_PATTERN _) as [m|].
  { destruct (group1_lower m); simpl; [f_equal; set_solver|done]. }
  destruct (Str.split _) as [|part0 parts]; simpl; [f_equal; set_solver|].
  destruct (Re.match_ RAW_DOMAIN_PATTERN _) as [m|]; simpl;
    [|f_equal; set_solver].
  destruct (group1_lower m); simpl; [f_equal; set_solver|done].
Qed.

Lemma parse_line_yields rules line r :
  parse_line ∅ line = Ok {[ r ]} →
  parse_line rules line = Ok ({[ r ]} ∪ rules).
Proof. intros H. by rewrite parse_line_mono, H. Qed.

Lemma parse_line_yields_nothing rules line :
  parse_line ∅ line = Ok ∅ → parse_line rules line = Ok rules.
Proof.
  intros H. rewrite parse_line_mono, H. simpl. f_equal. set_solver.
Qed.

Lemma blank_or_comment_skipped rules line :
  blank_or_comment line = true → parse_line rules line = Ok rules.
Proof. unfold blank_or_comment, parse_line. by intros ->. Qed.

Lemma blank_or_comment_iff line :
  blank_or_comment line = true ↔
  Str.strip line = ""
  ∨ ∃ c t, Str.strip line = String c t
           ∧ (c = "#" ∨ c = "!" ∨ c = "/")%char.
Proof.
  unfold blank_or_comment, Str.startswith_any.
  rewrite orb_true_iff, bool_decide_eq_true.
  apply or_iff_compat_l. destruct (Str.strip line) as [|c t]; simpl.
  - naive_solver.
  - rewrite !orb_true_iff, !bool_decide_eq_true. naive_solver.
Qed.

(** C2: the loop body tries the hosts-file pattern, then the ad-blocking
    pattern, then the raw-domain pattern on the first word, and the first
    that matches decides the rule; blank lines and lines whose trimmed form
    starts with [#], [!] or [/] give no rule; the five scenarios of the
    specification come out as it says, the first of them although the
    raw-domain pattern would match its first word too. *)
Theorem classifier_priority_and_scenarios :
  (∀ rules line, blank_or_comment line = false →
     match Re.match_ HOSTS_PATTERN (Str.strip line) with
     | Some m =>
         ∃ d, Re.group1 m = Some d
           ∧ parse_line rules line = Ok ({[ ("full", Str.lower d) ]} ∪ rules)
     | None =>
         match Re.match_ ADGUARD_PATTERN (Str.strip line) with
         | Some m =>
             ∃ d, Re.group1 m = Some d
               ∧ parse_line rules line
                 = Ok ({[ ("domain", Str.lower d) ]} ∪ rules)
         | None =>
             ∃ tok parts, Str.split (Str.strip line) = tok :: parts ∧
               match Re.match_ RAW_DOMAIN_PATTERN tok with
               | Some m =>
                   ∃ d, Re.group1 m = Some d
                     ∧ parse_line rules line
                       = Ok ({[ ("domain", Str.lower d) ]} ∪ rules)
               | None => parse_line rules line = Ok rules
               end
         end
     end)
  ∧ (∀ rules line,
       Str.strip line = ""
       ∨ (∃ c t, Str.strip line = String c t
                 ∧ (c = "#" ∨ c = "!" ∨ c = "/")%char) →
       parse_line rules line = Ok rules)
  ∧ (∀ rules, parse_line rules "0.0.0.0 ads.example.com"
              = Ok ({[ ("full", "ads.example.com") ]} ∪ rules))
  ∧ is_Some (Re.match_ RAW_DOMAIN_PATTERN "0.0.0.0")
  ∧ (∀ rules, parse_line rules "||tracker.example.net^"
              = Ok ({[ ("domain", "tracker.example.net") ]} ∪ rules))
  ∧ (∀ rules, parse_line rules "plain-domain.org"
              = Ok ({[ ("domain", "plain-domain.org") ]} ∪ rules))
  ∧ (∀ rules, parse_line rules "# comment" = Ok rules)
  ∧ (∀ rules, parse_line rules "http://example.com/path" = Ok rules)
  ∧ default Plain (Dict.get "full" rule_type_map) = Full
  ∧ default Plain (Dict.get "domain" rule_type_map) = RootDomain.
Proof.
  split; [|split].
  - intros rules line Hbc. unfold parse_line, blank_or_comment in *.
    rewrite Hbc.
    destruct (Re.match_ HOSTS_PATTERN _) as [m|] eqn:Hh.
    { destruct (hosts_group _ _ Hh) as (d & Hg & _). exists d.
      by rewrite (group1_lower_ok _ _ Hg). }
    destruct (Re.match_ ADGUARD_PATTERN _) as [m|] eqn:Ha.
    { destruct (adguard_group _ _ Ha) as (d & Hg & _). exists d.
      by rewrite (group1_lower_ok _ _ Hg). }
    apply orb_false_iff in Hbc as [Hne%bool_decide_eq_false _].
    destruct (strip_head line) as [?|(c & t & E & Hc)]; [done|].
    rewrite E. destruct (split_first c t Hc) as (tok & parts & _ & -> & _).
    exists tok, parts. split; [done|]. simpl.
    destruct (Re.match_ RAW_DOMAIN_PATTERN _) as [m|] eqn:Hr; [|done].
    destruct (raw_group _ _ Hr) as (d & Hg & _). exists d.
    by rewrite (group1_lower_ok _ _ Hg).
  - intros rules line H%blank_or_comment_iff.
    by apply blank_or_comment_skipped.
  - repeat split;
      try (intros rules;
           first [ apply parse_line_yields | apply parse_line_yields_nothing ]);
      vm_compute; eauto.
Qed.

(** The word [..com] has two empty labels, whatever characters a label may
    hold, and the pattern accepts it. *)
Lemma fallback_exactly_on_labels_counterexample :
  ¬ ∃ label_char, fallback_exactly_on_labels label_char ∅ "..com".
Proof.
  intros (label_char & H).
  specialize (H eq_refl eq_refl eq_refl "..com" eq_refl).
  assert (parse_line ∅ "..com" = Ok {[ ("domain", "..com") ]}) as E
    by vm_refl.
  rewrite E in H. unfold dot_separated_labels in H. simpl in H.
  apply (f_equal (λ r, match r with
                       | Ok rules => bool_decide (rules = ∅)
                       | Raise _ => false
                       end)) in H.
  vm_compute in H. discriminate.
Qed.

(** C3, amended: a line that is neither blank nor a comment and that neither
    the hosts-file nor the ad-blocking pattern matches is decided by its
    first white-space-separated word alone, whatever follows it: the line
    gives the rule of kind [domain] (RootDomain in the output) with the word
    lower-cased, no capital left in it, exactly when the word is one
    [RAW_DOMAIN_PATTERN] accepts, and no rule otherwise.  The pattern
    accepts the words that have, before their last dot, one or more word
    characters, dots and hyphens and, after it, one or more word
    characters: every word of two or more dot-separated labels of word
    characters is among them, and so are [..com], [a..b], [-.a] and
    [plain-domain.org]; [a.co-m], [localhost] and [http://example.com/path]
    are not. *)
Theorem raw_domain_fallback rules line :
  blank_or_comment line = false →
  Re.match_ HOSTS_PATTERN (Str.strip line) = None →
  Re.match_ ADGUARD_PATTERN (Str.strip line) = None →
  ∃ tok tail,
    Str.strip line = tok +:+ tail ∧ tok ≠ "" ∧ no_space tok
    ∧ (tail = "" ∨ ∃ c t, tail = String c t ∧ Char.is_space c = true)
    ∧ head (Str.split (Str.strip line)) = Some tok
    ∧ parse_line rules line
      = (if raw_domain_shape tok
         then Ok ({[ ("domain", Str.lower tok) ]} ∪ rules)
         else Ok rules)
    ∧ no_capital (Str.lower tok)
    ∧ (dot_separated_labels Char.is_word tok = true →
       raw_domain_shape tok = true)
    ∧ raw_domain_shape <$>
        ["..com"; "a..b"; "-.a"; "plain-domain.org";
         "a.co-m"; "localhost"; "http://example.com/path"]
      = [true; true; true; true; false; false; false]
    ∧ default Plain (Dict.get "domain" rule_type_map) = RootDomain.
Proof.
  intros Hbc Hh Ha. unfold parse_line. fold (blank_or_comment line).
  rewrite Hbc, Hh, Ha.
  apply orb_false_iff in Hbc as [Hne%bool_decide_eq_false _].
  destruct (strip_head line) as [?|(c & t & E & Hc)]; [done|].
  rewrite E.
  destruct (split_first c t Hc) as (tok & parts & tail & -> & E' & Hns & Hn & Ht).
  exists tok, tail.
  split_and!; try done;
    [|apply lower_no_capital|apply dot_separated_labels_shape].
  simpl. pose proof (raw_match_word tok Hns) as Hraw.
  destruct (Re.match_ RAW_DOMAIN_PATTERN tok) as [m|].
  - destruct Hraw as [-> Hg]. by rewrite (group1_lower_ok _ _ Hg).
  - by rewrite Hraw.
Qed.

(** A bare domain in capitals, followed by further words. *)
Lemma raw_domain_fallback_witness :
  (blank_or_comment "Plain-Domain.ORG trailing words" = false
   ∧ Re.match_ HOSTS_PATTERN (Str.strip "Plain-Domain.ORG trailing words")
     = None
   ∧ Re.match_ ADGUARD_PATTERN (Str.strip "Plain-Domain.ORG trailing words")
     = None)
  ∧ head (Str.split (Str.strip "Plain-Domain.ORG trailing words"))
    = Some "Plain-Domain.ORG"
  ∧ raw_domain_shape "Plain-Domain.ORG" = true
  ∧ parse_line ∅ "Plain-Domain.ORG trailing words"
    = Ok {[ ("domain", "plain-domain.org") ]}.
Proof.
  split; [split; [|split]; vm_refl|].
  split; [vm_refl|]. split; [vm_refl|].
  destruct (raw_domain_fallback ∅ "Plain-Domain.ORG trailing words")
    as (tok & tail & _ & _ & _ & _ & Hhead & Hparse & _); [vm_refl..|].
  assert (head (Str.split (Str.strip "Plain-Domain.ORG trailing words"))
          = Some "Plain-Domain.ORG") as Hhead' by vm_refl.
  assert (tok = "Plain-Domain.ORG") as -> by congruence.
  rewrite Hparse. vm_refl.
Defined.

(** ** The rule set of a source *)

Lemma parse_blocklist_ok content : ∃ rules, parse_blocklist content = Ok rules.
Proof. apply for_each_ok. apply parse_line_ok. Qed.

(** C7: [parse_blocklist] returns a rule set for every text and raises
    nothing; neither does any turn of its loop, and a line that none of the
    three patterns matches leaves the set as it is. *)
Theorem parse_blocklist_total content :
  (∃ rules, parse_blocklist content = Ok rules)
  ∧ (∀ e, parse_blocklist content ≠ Raise e)
  ∧ (∀ rules line, ∃ rules', parse_line rules line = Ok rules')
  ∧ (∀ rules line,
       Re.match_ HOSTS_PATTERN (Str.strip line) = None →
       Re.match_ ADGUARD_PATTERN (Str.strip line) = None →
       (∀ tok, head (Str.split (Str.strip line)) = Some tok →
               Re.match_ RAW_DOMAIN_PATTERN tok = None) →
       parse_line rules line = Ok rules).
Proof.
  destruct (parse_blocklist_ok content) as [rules Hok].
  repeat split.
  - eauto.
  - intros e. by rewrite Hok.
  - apply parse_line_ok.
  - intros rules0 line Hh Ha Hr. unfold parse_line. rewrite Hh, Ha.
    destruct (_ || _); [done|].
    destruct (Str.split _) as [|tok parts]; [done|]. simpl.
    by rewrite (Hr tok).
Qed.

Lemma parse_line_canonical rules line rules' :
  (∀ r, r ∈ rules → canonical r) →
  parse_line rules line = Ok rules' →
  ∀ r, r ∈ rules' → canonical r.
Proof.
  intros Hinv Hl r.
  destruct (parse_line_cases rules line) as [E|(kind & d & Hk & Hd & E)];
    rewrite E in Hl; simplify_eq; [by auto|].
  rewrite elem_of_union, elem_of_singleton. intros [->|?]; [|by auto].
  split; [done|]. by exists d.
Qed.

Lemma parse_blocklist_canonical content rules :
  parse_blocklist content = Ok rules → ∀ r, r ∈ rules → canonical r.
Proof.
  apply (for_each_invariant (λ s : gset Rule, ∀ r, r ∈ s → canonical r)).
  - intros s x s'. apply parse_line_canonical.
  - intros r. by rewrite elem_of_empty.
Qed.

Lemma canonical_domain r :
  canonical r → Str.lower r.2 = r.2 ∧ r.2 ≠ "" ∧ Str.strip r.2 = r.2.
Proof.
  intros [_ (d & [Hne Hall] & ->)]. split; [apply lower_idem|]. split.
  - intros ?%lower_eq_empty. done.
  - by apply strip_no_space, all_domain_no_space, all_domain_lower.
Qed.

(** C6: the domain of every rule of every parsed text is lower-cased, not
    empty and free of surrounding white space; [WWW.Example.COM] and
    [www.example.com] on two lines of one text give the single rule with
    domain [www.example.com]. *)
Theorem domains_are_canonical content :
  (∃ rules, parse_blocklist content = Ok rules
     ∧ ∀ kind d, (kind, d) ∈ rules →
         Str.lower d = d ∧ d ≠ "" ∧ Str.strip d = d)
  ∧ parse_blocklist (unlines ["WWW.Example.COM"; "www.example.com"])
    = Ok {[ ("domain", "www.example.com") ]}.
Proof.
  split; [|vm_refl].
  destruct (parse_blocklist_ok content) as [rules Hok].
  exists rules. split; [done|]. intros kind d Hin.
  apply (canonical_domain (kind, d)).
  by eapply parse_blocklist_canonical.
Qed.

Lemma for_each_parse_line_elem lines :
  ∀ s s', for_each parse_line s lines = Ok s' →
    s ⊆ s' ∧ ∀ line r, line ∈ lines → parse_line ∅ line = Ok {[ r ]} → r ∈ s'.
Proof.
  induction lines as [|l lines IH]; intros s s'; simpl.
  - intros [= <-]. split; [done|]. intros ?? []%elem_of_nil.
  - rewrite parse_line_mono.
    destruct (parse_line ∅ l) as [s0|] eqn:El; [|done]. simpl.
    intros [Hsub Hin]%IH. split; [set_solver|].
    intros line r [->|?]%elem_of_cons Hr; [|by eauto].
    rewrite El in Hr. simplify_eq. set_solver.
Qed.

Lemma filter_eq_NoDup {A} `{EqDecision A} (l : list A) (x : A) :
  NoDup l → x ∈ l → length (filter (λ y, y = x) l) = 1.
Proof.
  induction 1 as [|y l Hy Hl IH]; [by intros ?%elem_of_nil|].
  rewrite elem_of_cons, filter_cons. intros [<-|Hx].
  - rewrite decide_True by done. simpl. f_equal.
    apply length_zero_iff_nil, elem_of_nil_inv.
    intros z [-> ?]%list_elem_of_filter. done.
  - rewrite decide_False by (intros ->; done). auto.
Qed.

(** C5: when a line occurs [N > 1] times in a text, the rule set of the
    text holds the rule of that line exactly once; no rule set lists a rule
    twice, and the loop body leaves a set that has the rule as it is. *)
Theorem repeated_line_one_rule content line r N :
  length (filter (λ l, l = line) (Str.splitlines content)) = N →
  N > 1 →
  parse_line ∅ line = Ok {[ r ]} →
  ∃ rules, parse_blocklist content = Ok rules
    ∧ r ∈ rules
    ∧ length (filter (λ r', r' = r) (elements rules)) = 1
    ∧ NoDup (elements rules)
    ∧ (∀ rules', r ∈ rules' → parse_line rules' line = Ok rules').
Proof.
  intros HN Hgt Hr.
  destruct (parse_blocklist_ok content) as [rules Hok].
  exists rules. split; [done|].
  assert (line ∈ Str.splitlines content) as Hline.
  { destruct (filter _ _) as [|l ls] eqn:E; [simpl in HN; lia|].
    assert (l ∈ filter (λ l, l = line) (Str.splitlines content)) as Hl
      by (rewrite E; left).
    by apply list_elem_of_filter in Hl as [-> ?]. }
  assert (r ∈ rules) as Hin
    by (eapply for_each_parse_line_elem; [exact Hok|exact Hline|exact Hr]).
  repeat split; [done| |apply NoDup_elements|].
  - apply filter_eq_NoDup; [apply NoDup_elements|by apply elem_of_elements].
  - intros rules' Hin'. rewrite (parse_line_yields _ _ _ Hr).
    f_equal. set_solver.
Qed.

(** A text whose second line stands three times in it. *)
Lemma repeated_line_one_rule_witness :
  (length (filter (λ l, l = "0.0.0.0 Ads.example.com")
     (Str.splitlines
        (unlines ["a.org"; "0.0.0.0 Ads.example.com"; "# c";
                  "0.0.0.0 Ads.example.com"; "0.0.0.0 Ads.example.com"])))
   = 3
   ∧ 3 > 1
   ∧ parse_line ∅ "0.0.0.0 Ads.example.com"
     = Ok {[ ("full", "ads.example.com") ]})
  ∧ ∃ rules,
      parse_blocklist
        (unlines ["a.org"; "0.0.0.0 Ads.example.com"; "# c";
                  "0.0.0.0 Ads.example.com"; "0.0.0.0 Ads.example.com"])
      = Ok rules
      ∧ ("full", "ads.example.com") ∈ rules
      ∧ length (filter (λ r', r' = ("full", "ads.example.com"))
                  (elements rules)) = 1
      ∧ NoDup (elements rules)
      ∧ (∀ rules', ("full", "ads.example.com") ∈ rules' →
           parse_line rules' "0.0.0.0 Ads.example.com" = Ok rules').
Proof.
  split; [split; [|split]; [vm_refl|lia|vm_refl]|].
  apply (repeated_line_one_rule _ "0.0.0.0 Ads.example.com" _ 3);
    [vm_refl|lia|vm_refl].
Defined.

(** ** Dictionaries *)

Lemma get_set_eq {V} k (v : V) d : Dict.get k (Dict.set k v d) = Some v.
Proof.
  induction d as [|[k' v'] d IH]; csimpl.
  - by rewrite decide_True.
  - destruct (decide (k' = k)) as [->|Hne]; csimpl.
    + by rewrite decide_True.
    + by rewrite decide_False.
Qed.

Lemma get_set_ne {V} k k' (v : V) d :
  k ≠ k' → Dict.get k' (Dict.set k v d) = Dict.get k' d.
Proof.
  intros Hne. induction d as [|[k0 v0] d IH]; csimpl.
  - by rewrite decide_False.
  - destruct (decide (k0 = k)) as [->|Hne0]; csimpl.
    + by rewrite !decide_False.
    + by rewrite IH.
Qed.

Lemma get_None {V} k (d : Dict.t V) :
  Dict.get k d = None ↔ k ∉ Dict.keys d.
Proof.
  unfold Dict.keys. induction d as [|[k' v'] d IH]; csimpl.
  - rewrite elem_of_nil. naive_solver.
  - rewrite not_elem_of_cons. destruct (decide (k' = k)); naive_solver.
Qed.

Lemma get_Some_elem {V} k (v : V) d : Dict.get k d = Some v → (k, v) ∈ d.
Proof.
  induction d as [|[k' v'] d IH]; csimpl; [done|].
  destruct (decide (k' = k)) as [->|].
  - intros [= ->]. left.
  - intros ?. right. auto.
Qed.

Lemma elem_get {V} k (v : V) d :
  NoDup (Dict.keys d) → (k, v) ∈ d → Dict.get k d = Some v.
Proof.
  unfold Dict.keys. induction d as [|[k' v'] d IH]; csimpl.
  - by intros _ ?%elem_of_nil.
  - intros [Hk Hd]%NoDup_cons [[= -> ->]|Hin]%elem_of_cons.
    + by rewrite decide_True.
    + rewrite decide_False; [by auto|].
      intros ->. apply Hk. apply list_elem_of_fmap. by exists (k, v).
Qed.

Lemma keys_set_present {V} k (v : V) d :
  k ∈ Dict.keys d → Dict.keys (Dict.set k v d) = Dict.keys d.
Proof.
  unfold Dict.keys. induction d as [|[k' v'] d IH]; csimpl.
  - by intros ?%elem_of_nil.
  - destruct (decide (k' = k)) as [->|Hne]; csimpl; [done|].
    intros [->|?]%elem_of_cons; [done|]. by rewrite IH.
Qed.

Lemma keys_set_absent {V} k (v : V) d :
  k ∉ Dict.keys d → Dict.set k v d = d ++ [(k, v)].
Proof.
  unfold Dict.keys. induction d as [|[k' v'] d IH]; csimpl; [done|].
  intros [Hne Hd]%not_elem_of_cons.
  rewrite decide_False by done. by rewrite IH.
Qed.

Lemma keys_set_NoDup {V} k (v : V) d :
  NoDup (Dict.keys d) → NoDup (Dict.keys (Dict.set k v d)).
Proof.
  intros Hd. destruct (decide (k ∈ Dict.keys d)) as [Hin|Hout].
  - by rewrite keys_set_present.
  - rewrite keys_set_absent by done. unfold Dict.keys in *.
    rewrite fmap_app. csimpl. apply NoDup_app. split; [done|].
    split; [|apply NoDup_singleton].
    intros x Hx ->%list_elem_of_singleton. done.
Qed.

Lemma elem_set {V} k (v : V) d k' v' :
  (k', v') ∈ Dict.set k v d → (k', v') = (k, v) ∨ (k', v') ∈ d.
Proof.
  induction d as [|[k0 v0] d IH]; csimpl.
  - intros ->%list_elem_of_singleton. by left.
  - destruct (decide (k0 = k)) as [->|].
    + intros [->|?]%elem_of_cons; [by left|]. right. by right.
    + intros [->|?]%elem_of_cons; [right; left|].
      destruct IH as [?|?]; auto. right. by right.
Qed.

Lemma assign_all_NoDup {V} (l : list (string * V)) d :
  NoDup (Dict.keys d) → NoDup (Dict.keys (assign_all d l)).
Proof.
  revert d. induction l as [|[k v] l IH]; intros d Hd; csimpl; [done|].
  apply IH. by apply keys_set_NoDup.
Qed.

Lemma assign_all_elem {V} (l : list (string * V)) d kv :
  kv ∈ assign_all d l → kv ∈ d ∨ kv ∈ l.
Proof.
  revert d. induction l as [|[k v] l IH]; intros d; csimpl; [by left|].
  intros [Hin|Hin]%IH.
  - destruct kv as [k' v']. apply elem_set in Hin as [->|?]; [|by left].
    right. left.
  - right. by right.
Qed.

(** Assignments to keys that are new and distinct append, in order. *)
Lemma assign_all_fresh {V} (l : list (string * V)) d :
  NoDup (Dict.keys d ++ l.*1) → assign_all d l = d ++ l.
Proof.
  revert d. induction l as [|[k v] l IH]; intros d Hnd; csimpl.
  - by rewrite app_nil_r.
  - csimpl in Hnd. rewrite keys_set_absent.
    + rewrite IH; [by rewrite <-app_assoc|].
      unfold Dict.keys in *. rewrite fmap_app. csimpl.
      by rewrite <-app_assoc.
    + apply NoDup_app in Hnd as (_ & Hnd & _). intros Hk.
      apply (Hnd k Hk). left.
Qed.

(** ** The stable sort *)

Lemma lt_irrefl a : Str.lt a a = false.
Proof. induction a as [|x a IH]; simpl; [done|]. by rewrite N.ltb_irrefl. Qed.

Lemma lt_asym a b : Str.lt a b = true → Str.lt b a = false.
Proof.
  revert b. induction a as [|x a IH]; intros [|y b]; simpl; try done.
  destruct (N.ltb_spec x y), (N.ltb_spec y x); try done; try lia. auto.
Qed.

Lemma lt_false_trans a b c :
  Str.lt b a = false → Str.lt c b = false → Str.lt c a = false.
Proof.
  revert b c. induction a as [|x a IH]; intros [|y b] [|z c]; simpl;
    try done.
  destruct (N.ltb_spec y x), (N.ltb_spec x y), (N.ltb_spec z y),
    (N.ltb_spec y z), (N.ltb_spec z x), (N.ltb_spec x z);
    try done; try lia.
  apply IH.
Qed.

Lemma lt_false_antisym a b :
  Str.lt b a = false → Str.lt a b = false → a = b.
Proof.
  revert b. induction a as [|x a IH]; intros [|y b]; simpl; try done.
  destruct (N.ltb_spec x y), (N.ltb_spec y x); try done; try lia.
  intros H1 H2. assert (x = y) as -> by lia. f_equal. by apply IH.
Qed.

Section Sort.
Context {A : Type} (key : A → list N).

Lemma insert_by_perm x l : insert_by key x l ≡ₚ x :: l.
Proof.
  induction l as [|y l IH]; simpl; [done|].
  destruct (Str.lt _ _); [|done].
  rewrite IH. apply perm_swap.
Qed.

Lemma sort_by_perm l : sort_by key l ≡ₚ l.
Proof.
  induction l as [|x l IH]; simpl; [done|].
  by rewrite insert_by_perm, IH.
Qed.

Lemma insert_by_hd x y l :
  key_le key y x → HdRel (key_le key) y l →
  HdRel (key_le key) y (insert_by key x l).
Proof.
  intros Hyx Hl. destruct l as [|z l]; simpl; [by constructor|].
  destruct (Str.lt _ _); constructor; [|done]. by inv Hl.
Qed.

Lemma insert_by_sorted x l :
  Sorted (key_le key) l → Sorted (key_le key) (insert_by key x l).
Proof.
  induction 1 as [|y l Hl IH Hy]; simpl; [by repeat constructor|].
  destruct (Str.lt (key y) (key x)) eqn:E.
  - constructor; [done|]. apply insert_by_hd; [|done].
    by apply lt_asym.
  - constructor; [by constructor|]. by constructor.
Qed.

Lemma sort_by_sorted l : Sorted (key_le key) (sort_by key l).
Proof.
  induction l as [|x l IH]; simpl; [constructor|].
  by apply insert_by_sorted.
Qed.

(** Stability: the elements of one key keep their order. *)
Lemma insert_by_stable k x l :
  filter (λ y, key y = k) (insert_by key x l)
  = filter (λ y, key y = k) (x :: l).
Proof.
  induction l as [|y l IH]; simpl; [done|].
  destruct (Str.lt (key y) (key x)) eqn:E; [|done].
  assert (key y ≠ key x) as Hne
    by (intros Heq; rewrite Heq, lt_irrefl in E; done).
  rewrite !filter_cons, IH, !filter_cons.
  repeat case_decide; congruence.
Qed.

Lemma sort_by_stable k l :
  filter (λ y, key y = k) (sort_by key l) = filter (λ y, key y = k) l.
Proof.
  induction l as [|x l IH]; simpl; [done|].
  by rewrite insert_by_stable, !filter_cons, IH.
Qed.

Lemma key_le_trans : Transitive (key_le key).
Proof. intros a b c. unfold key_le. apply lt_false_trans. Qed.

Lemma sort_by_ext key' l :
  (∀ x, key x = key' x) → sort_by key l = sort_by key' l.
Proof.
  intros Hext. induction l as [|x l IH]; simpl; [done|]. rewrite IH.
  generalize (sort_by key' l). intros l'.
  induction l' as [|y l' IH']; simpl; [done|].
  by rewrite !Hext, IH'.
Qed.

End Sort.

Lemma sort_by_fmap {A B} (key : B → list N) (f : A → B) l :
  sort_by key (f <$> l) = f <$> sort_by (key ∘ f) l.
Proof.
  induction l as [|x l IH]; csimpl; [done|]. rewrite IH.
  generalize (sort_by (key ∘ f) l). intros l'.
  induction l' as [|y l' IH']; csimpl; [done|].
  rewrite IH'. by destruct (Str.lt _ _).
Qed.

(** ** The order of the groups *)

Lemma NoDup_fmap_eq {A B} (f : A → B) (l : list A) x y :
  NoDup (f <$> l) → x ∈ l → y ∈ l → f x = f y → x = y.
Proof.
  induction l as [|z l IH]; csimpl; [by intros _ ?%elem_of_nil|].
  intros [Hz Hl]%NoDup_cons [->|Hx]%elem_of_cons [->|Hy]%elem_of_cons E;
    [done| | |by auto].
  - destruct Hz. rewrite E. by apply list_elem_of_fmap_2.
  - destruct Hz. rewrite <-E. by apply list_elem_of_fmap_2.
Qed.

(** Two dictionaries with the same entries list them in some order each. *)
Lemma same_entries_perm {V} (d1 d2 : Dict.t V) :
  NoDup (Dict.keys d1) → NoDup (Dict.keys d2) →
  (∀ k, Dict.get k d1 = Dict.get k d2) → d1 ≡ₚ d2.
Proof.
  intros H1 H2 Hget. apply NoDup_Permutation.
  - by apply (NoDup_fmap_1 fst).
  - by apply (NoDup_fmap_1 fst).
  - intros [k v]. split; intros Hin.
    + apply get_Some_elem. rewrite <-Hget. by apply elem_get.
    + apply get_Some_elem. rewrite Hget. by apply elem_get.
Qed.

Lemma assemble_sorted iteration d : Sorted label_le (assemble iteration d).
Proof. apply (sort_by_sorted country_code). Qed.

Lemma assemble_perm iteration d :
  assemble iteration d ≡ₚ site_of iteration <$> d.
Proof. apply sort_by_perm. Qed.

(** The groups are those of the entries of the dictionary, sorted by the
    upper-cased names. *)
Lemma assemble_items iteration d :
  assemble iteration d
  = site_of iteration <$> sort_by (Str.upper ∘ fst) d.
Proof.
  unfold assemble. rewrite sort_by_fmap. f_equal.
  apply sort_by_ext. by intros [name rules].
Qed.

Lemma sorted_items_unique (d1 d2 : Dict.t (gset Rule)) :
  NoDup (Str.upper <$> Dict.keys d1) →
  NoDup (Dict.keys d1) → NoDup (Dict.keys d2) →
  (∀ k, Dict.get k d1 = Dict.get k d2) →
  sort_by (Str.upper ∘ fst) d1 = sort_by (Str.upper ∘ fst) d2.
Proof.
  intros Hup H1 H2 Hget.
  pose proof (same_entries_perm d1 d2 H1 H2 Hget) as Hperm.
  apply (@Sorted_unique_strong _ _ (key_le_trans (Str.upper ∘ fst)));
    [|apply sort_by_sorted..|by rewrite !sort_by_perm].
  intros [k1 v1] [k2 v2]. rewrite !sort_by_perm, <-Hperm.
  intros Hin1 Hin2 Hle1 Hle2.
  assert (Str.upper k1 = Str.upper k2) as Hk
    by (by apply lt_false_antisym).
  assert (k1 = k2) as ->.
  { eapply (NoDup_fmap_eq Str.upper (Dict.keys d1)); [done| | |done];
      unfold Dict.keys; apply list_elem_of_fmap; by eexists (_, _). }
  apply (elem_get _ _ _ H1) in Hin1, Hin2. congruence.
Qed.

Lemma site_of_same_group iteration1 iteration2 item :
  same_group (site_of iteration1 item) (site_of iteration2 item).
Proof.
  destruct item as [name rules]. split; [done|]. simpl.
  by rewrite !iterate_once.
Qed.

(** The names [a] and [A] have one label: their groups leave the sort in
    the order in which they entered the dictionary. *)
Lemma order_independent_counterexample :
  ¬ order_independent lower_a_first upper_a_first.
Proof.
  intros H.
  assert (assemble in_elements_order lower_a_first
          = assemble in_elements_order upper_a_first) as E.
  { apply H.
    - repeat constructor; set_solver.
    - repeat constructor; set_solver.
    - intros k. simpl. repeat case_decide; congruence. }
  apply (f_equal (λ l, domain <$> head l)) in E.
  vm_compute in E. discriminate.
Qed.

(** The entries of a group come in the order in which its rule set is
    visited. *)
Example entry_order_follows_iteration :
  assemble in_elements_order one_group_two_rules
  ≠ assemble in_reverse_order one_group_two_rules.
Proof.
  intros E. apply (f_equal (λ l, domain <$> head l)) in E.
  vm_compute in E. discriminate.
Qed.

(** C4, amended: the groups leave [assemble] sorted by label, ascending in
    the order of code points, one group per entry of the dictionary, the
    groups of one label in the order of their entries.  Two dictionaries
    with the same entries, filled in different orders, assemble to the same
    sequence of groups when no two names have the same upper-cased label:
    the same labels in the same order, each group with the same entries;
    the order of the entries inside a group is that in which its rule set
    is visited, and the two lists are equal when the rule sets are visited
    in the same order both times.  The names [B], [blocklists-all] and [A]
    give the labels [A], [B], [BLOCKLISTS-ALL]. *)
Theorem assemble_sorted_and_order_independent :
  (∀ iteration d,
     Sorted label_le (assemble iteration d)
     ∧ country_code <$> assemble iteration d ≡ₚ Str.upper <$> Dict.keys d)
  ∧ (∀ iteration d label,
       filter (λ g, country_code g = label) (assemble iteration d)
       = filter (λ g, country_code g = label) (site_of iteration <$> d))
  ∧ (∀ iteration1 iteration2 d1 d2,
       NoDup (Str.upper <$> Dict.keys d1) →
       NoDup (Dict.keys d1) → NoDup (Dict.keys d2) →
       (∀ k, Dict.get k d1 = Dict.get k d2) →
       Forall2 same_group (assemble iteration1 d1) (assemble iteration2 d2)
       ∧ ((∀ name rules,
             (name, rules) ∈ d1 →
             iterate iteration1 name rules = iterate iteration2 name rules) →
          assemble iteration1 d1 = assemble iteration2 d2))
  ∧ (∀ iteration,
       country_code <$>
         assemble iteration
           [("B", {[ ("domain", "dom2"); ("domain", "dom3") ]});
            ("blocklists-all",
             {[ ("domain", "dom1"); ("domain", "dom2");
                ("domain", "dom3") ]});
            ("A", {[ ("domain", "dom1"); ("domain", "dom2") ]})]
       = code_points <$> ["A"; "B"; "BLOCKLISTS-ALL"]).
Proof.
  split; [|split; [|split]].
  - intros iteration d. split; [apply assemble_sorted|].
    rewrite assemble_perm. unfold Dict.keys.
    rewrite <-!list_fmap_compose.
    rewrite (list_fmap_ext (country_code ∘ site_of iteration)
               (Str.upper ∘ fst) d); [done|]. by intros _ [k v] _.
  - intros iteration d label. apply (sort_by_stable country_code).
  - intros iteration1 iteration2 d1 d2 Hup H1 H2 Hget.
    rewrite !assemble_items.
    rewrite <-(sorted_items_unique d1 d2 Hup H1 H2 Hget). split.
    + apply Forall2_fmap, Forall_Forall2_diag, Forall_forall.
      intros item _. apply site_of_same_group.
    + intros Hsame. apply list_fmap_ext. intros i [name rules] Hin. simpl.
      rewrite Hsame; [done|].
      apply list_elem_of_lookup_2 in Hin. by rewrite sort_by_perm in Hin.
  - intros iteration. rewrite assemble_items, <-list_fmap_compose.
    rewrite (list_fmap_ext (country_code ∘ site_of iteration)
               (Str.upper ∘ fst) _ (λ _ '(k, v) _, eq_refl)).
    vm_refl.
Qed.

(** Two names with different labels, entered in either order, their rule
    sets visited in the order of [elements] and in the opposite order. *)
Lemma assemble_order_witness :
  (NoDup (Str.upper <$> Dict.keys sites_b_a)
   ∧ NoDup (Dict.keys sites_b_a) ∧ NoDup (Dict.keys sites_a_b)
   ∧ (∀ k, Dict.get k sites_b_a = Dict.get k sites_a_b)
   ∧ (∀ name rules,
        (name, rules) ∈ sites_b_a →
        iterate in_elements_order name rules
        = iterate in_reverse_order name rules))
  ∧ Forall2 same_group
      (assemble in_elements_order sites_b_a)
      (assemble in_reverse_order sites_a_b)
  ∧ assemble in_elements_order sites_b_a
    = assemble in_reverse_order sites_a_b.
Proof.
  assert (NoDup (Str.upper <$> Dict.keys sites_b_a)) as Hup
    by (vm_compute; repeat constructor; set_solver).
  assert (NoDup (Dict.keys sites_b_a)) as H1
    by (vm_compute; repeat constructor; set_solver).
  assert (NoDup (Dict.keys sites_a_b)) as H2
    by (vm_compute; repeat constructor; set_solver).
  assert (∀ k, Dict.get k sites_b_a = Dict.get k sites_a_b) as Hget
    by (intros k; simpl; repeat case_decide; congruence).
  assert (∀ name rules,
            (name, rules) ∈ sites_b_a →
            iterate in_elements_order name rules
            = iterate in_reverse_order name rules) as Hsame.
  { intros name rules Hin. unfold sites_b_a in Hin.
    repeat (apply elem_of_cons in Hin as [[= -> ->]|Hin]; [vm_refl|]).
    by apply elem_of_nil in Hin. }
  split; [done|].
  destruct (proj1 (proj2 (proj2 assemble_sorted_and_order_independent))
              in_elements_order in_reverse_order sites_b_a sites_a_b
              Hup H1 H2 Hget) as [Hgroups Heq].
  split; [exact Hgroups|exact (Heq Hsame)].
Defined.

(** ** Reading the manifest *)

Lemma unpack2_cases {A} (fields : list A) :
  (∃ a b, fields = [a; b] ∧ unpack2 fields = Ok (a, b))
  ∨ unpack2 fields = Raise ValueError.
Proof. destruct fields as [|a [|b [|c l]]]; simpl; eauto. Qed.

Section MainProperties.

Variable requests_get : nat → string → option string.

(** One turn of the loop over the manifest returns; the catalogue, the
    union and the request count change as [parsed_sources] says. *)
Lemma main_step_spec st line :
  ∃ st', main_step requests_get st line = Ok st'
    ∧ blocklists st'
      = assign_all (blocklists st)
          (parsed_sources requests_get (requests st) [line])
    ∧ all_rules st'
      = all_rules st
        ∪ ⋃ (parsed_sources requests_get (requests st) [line]).*2
    ∧ (∀ manifest,
         parsed_sources requests_get (requests st) (line :: manifest)
         = parsed_sources requests_get (requests st) [line]
           ++ parsed_sources requests_get (requests st') manifest).
Proof.
  unfold main_step. simpl.
  destruct (_ || _).
  { exists st. repeat split; simpl; try done; set_solver. }
  destruct (unpack2_cases (Str.strip <$> Str.split_comma_1 (Str.strip line)))
    as [(name & url & -> & ->)| ->].
  2:{ eexists. repeat split; simpl; try done; set_solver. }
  unfold fetch_blocklist. simpl.
  destruct (requests_get (requests st) url) as [text|].
  2:{ eexists. repeat split; simpl; try done; set_solver. }
  destruct (parse_blocklist_ok text) as [rules Hok]. rewrite Hok.
  simpl. eexists. repeat split; simpl; try done. set_solver.
Qed.

Lemma for_each_main_step manifest :
  ∀ st, ∃ st', for_each (main_step requests_get) st manifest = Ok st'
    ∧ blocklists st'
      = assign_all (blocklists st)
          (parsed_sources requests_get (requests st) manifest)
    ∧ all_rules st'
      = all_rules st
        ∪ ⋃ (parsed_sources requests_get (requests st) manifest).*2.
Proof.
  induction manifest as [|line manifest IH]; intros st.
  - exists st. repeat split. simpl. set_solver.
  - destruct (main_step_spec st line) as (st1 & E1 & Hb1 & Ha1 & Hsplit).
    destruct (IH st1) as (st' & E & Hb & Ha).
    exists st'. rewrite (Hsplit manifest). cbn [for_each]. rewrite E1.
    split; [done|]. split.
    + rewrite Hb, Hb1. unfold assign_all. by rewrite foldl_app.
    + rewrite Ha, Ha1, fmap_app, union_list_app_L. set_solver.
Qed.

(** What the loop over the manifest leaves behind: one assignment per
    parsed source, and the union of all their rule sets. *)
Lemma read_manifest_spec manifest :
  ∃ st0, read_manifest requests_get manifest = Ok st0
    ∧ blocklists st0 = assign_all [] (parsed_sources requests_get 0 manifest)
    ∧ all_rules st0 = ⋃ (parsed_sources requests_get 0 manifest).*2.
Proof.
  destruct (for_each_main_step manifest initial) as (st0 & E & Hb & Ha).
  exists st0. split; [done|]. split; [done|].
  rewrite Ha. simpl. set_solver.
Qed.

Lemma read_manifest_keys manifest st0 :
  read_manifest requests_get manifest = Ok st0 →
  NoDup (Dict.keys (blocklists st0)).
Proof.
  destruct (read_manifest_spec manifest) as (st & E & Hb & _).
  rewrite E. intros [= <-]. rewrite Hb. apply assign_all_NoDup. constructor.
Qed.

(** Every group of the catalogue is part of the union. *)
Lemma read_manifest_group_subset manifest st0 name rules :
  read_manifest requests_get manifest = Ok st0 →
  (name, rules) ∈ blocklists st0 → rules ⊆ all_rules st0.
Proof.
  destruct (read_manifest_spec manifest) as (st & E & Hb & Ha).
  rewrite E. intros [= <-]. rewrite Hb, Ha.
  intros [[]%elem_of_nil|Hin]%assign_all_elem.
  intros r Hr. apply elem_of_union_list. exists rules. split; [|done].
  apply list_elem_of_fmap. by exists (name, rules).
Qed.

End MainProperties.

(** ** The combined list *)

(** One name for two sources: the group of the second replaces the group of
    the first, whose rule stays in the combined list. *)
Lemma combined_is_union_of_groups_counterexample :
  ¬ combined_is_union_of_groups (pages two_pages) ["a,u1"; "a,u2"].
Proof.
  unfold combined_is_union_of_groups. intros H.
  apply (bool_decide_eq_true_2 _) in H. vm_compute in H. discriminate.
Qed.

(** A source under the name of the combined list whose text has no rule,
    and a source whose request fails: nothing is assigned on line 175, and
    the empty group of the first source is still in the catalogue. *)
Lemma source_group_absent_counterexample :
  ¬ source_group_absent (pages only_comments) ["blocklists-all,u1"; "b,u2"].
Proof.
  intros H.
  pose (st0 :=
    match read_manifest (pages only_comments) ["blocklists-all,u1"; "b,u2"]
    with Ok st => st | Raise _ => initial end).
  destruct (H st0 ∅) as (st & Hc & Hout); [vm_refl|vm_refl|].
  assert (catalog (pages only_comments) ["blocklists-all,u1"; "b,u2"]
          = Ok st0) as Hc' by vm_refl.
  assert (st = st0) as -> by congruence.
  apply Hout, get_Some_elem. vm_refl.
Qed.

Section Combined.

Variable requests_get : nat → string → option string.
Variable iteration : set_iteration.

Lemma add_combined_empty st : all_rules st = ∅ → add_combined st = st.
Proof. intros H. unfold add_combined. by rewrite bool_decide_eq_false_2; [|auto]. Qed.

Lemma add_combined_blocklists st :
  all_rules st ≠ ∅ →
  blocklists (add_combined st)
  = Dict.set "blocklists-all" (all_rules st) (blocklists st).
Proof. intros H. unfold add_combined. by rewrite bool_decide_eq_true_2. Qed.

Lemma add_combined_log st :
  all_rules st ≠ ∅ →
  log (add_combined st)
  = log st ++ [(INFO, Created_combined_list (size (all_rules st)))].
Proof. intros H. unfold add_combined. by rewrite bool_decide_eq_true_2. Qed.

(** C1, amended: when some rule was extracted, the combined group holds
    exactly the union of the rule sets of all sources that were fetched and
    parsed, a source whose group a later source of the same name replaced
    included; when no name was assigned twice, the groups in the catalogue
    at that moment are these rule sets, and the combined group is their
    union. *)
Theorem combined_is_union_of_parsed_sources manifest :
  (⋃ (parsed_sources requests_get 0 manifest).*2 ≠ ∅ →
   combined_group requests_get manifest
   = Some (⋃ (parsed_sources requests_get 0 manifest).*2))
  ∧ (NoDup (parsed_sources requests_get 0 manifest).*1 →
     groups_at_finalization requests_get manifest
     = (parsed_sources requests_get 0 manifest).*2)
  ∧ (NoDup (parsed_sources requests_get 0 manifest).*1 →
     ⋃ (parsed_sources requests_get 0 manifest).*2 ≠ ∅ →
     combined_is_union_of_groups requests_get manifest).
Proof.
  destruct (read_manifest_spec requests_get manifest) as (st0 & E & Hb & Ha).
  assert (⋃ (parsed_sources requests_get 0 manifest).*2 ≠ ∅ →
          combined_group requests_get manifest
          = Some (⋃ (parsed_sources requests_get 0 manifest).*2)) as H1.
  { intros Hne. unfold combined_group, catalog. rewrite E. simpl.
    rewrite <-Ha in *. rewrite add_combined_blocklists by done.
    apply get_set_eq. }
  assert (NoDup (parsed_sources requests_get 0 manifest).*1 →
          groups_at_finalization requests_get manifest
          = (parsed_sources requests_get 0 manifest).*2) as H2.
  { intros Hnd. unfold groups_at_finalization. rewrite E, Hb.
    by rewrite assign_all_fresh. }
  split; [done|]. split; [done|].
  intros Hnd Hne. unfold combined_is_union_of_groups.
  by rewrite H1, H2.
Qed.

(** C8, amended: when the catalogue holds a source under the name of the
    combined list, the finished catalogue holds the union of all rule sets
    under that name, in the same place and with no further entry, and no
    warning is logged.  When some rule was extracted, line 175 assigns the
    union in the place of the rule set of the source, which is in the union
    and, unless it is the union, is no longer a group; the creation of the
    combined list is logged.  When no rule was extracted, nothing is
    assigned: the catalogue stays as the loop over the manifest left it,
    with the empty group of the source. *)
Theorem combined_replaces_same_named_source manifest st0 rules :
  read_manifest requests_get manifest = Ok st0 →
  Dict.get "blocklists-all" (blocklists st0) = Some rules →
  catalog requests_get manifest = Ok (add_combined st0)
  ∧ Dict.get "blocklists-all" (blocklists (add_combined st0))
    = Some (all_rules st0)
  ∧ rules ⊆ all_rules st0
  ∧ Dict.keys (blocklists (add_combined st0)) = Dict.keys (blocklists st0)
  ∧ (∀ m, (WARNING, m) ∈ log (add_combined st0) → (WARNING, m) ∈ log st0)
  ∧ (all_rules st0 ≠ ∅ →
     blocklists (add_combined st0)
     = Dict.set "blocklists-all" (all_rules st0) (blocklists st0)
     ∧ (rules ≠ all_rules st0 →
        ("blocklists-all", rules) ∉ blocklists (add_combined st0))
     ∧ log (add_combined st0)
       = log st0 ++ [(INFO, Created_combined_list (size (all_rules st0)))])
  ∧ (all_rules st0 = ∅ →
     rules = ∅
     ∧ add_combined st0 = st0
     ∧ ("blocklists-all", rules) ∈ blocklists (add_combined st0)).
Proof.
  intros E Hget.
  assert (rules ⊆ all_rules st0) as Hsub.
  { eapply read_manifest_group_subset; [exact E|].
    by apply get_Some_elem. }
  pose proof (read_manifest_keys _ _ _ E) as Hnd.
  split; [unfold catalog; by rewrite E|].
  destruct (decide (all_rules st0 = ∅)) as [Hempty|Hne].
  - rewrite add_combined_empty by done.
    assert (rules = all_rules st0) as -> by set_solver.
    split_and!; try done.
    intros _. split; [done|]. split; [done|]. by apply get_Some_elem.
  - rewrite add_combined_blocklists, add_combined_log by done.
    assert (Dict.get "blocklists-all"
              (Dict.set "blocklists-all" (all_rules st0) (blocklists st0))
            = Some (all_rules st0)) as Hnew by apply get_set_eq.
    split_and!; try done.
    + apply keys_set_present. apply dec_stable. intros Hout%get_None.
      congruence.
    + intros m [?|[=]%list_elem_of_singleton]%elem_of_app. done.
    + intros _. split; [done|]. split; [|done].
      intros Hdiff Hin. apply elem_get in Hin; [congruence|].
      by apply keys_set_NoDup.
Qed.

(** C10: when no rule was extracted from any source, nothing is added to
    the catalogue the loop over the manifest left, and the output is
    assembled from that catalogue; a group named [blocklists-all] that no
    source brought in exists only when some rule was extracted. *)
Theorem no_combined_group_without_rules manifest :
  (⋃ (parsed_sources requests_get 0 manifest).*2 = ∅ →
   ∃ st0, read_manifest requests_get manifest = Ok st0
     ∧ catalog requests_get manifest = Ok st0
     ∧ main requests_get iteration manifest
       = Ok (assemble iteration (blocklists st0)))
  ∧ (∀ rules,
       "blocklists-all" ∉ (parsed_sources requests_get 0 manifest).*1 →
       combined_group requests_get manifest = Some rules →
       rules ≠ ∅
       ∧ rules = ⋃ (parsed_sources requests_get 0 manifest).*2).
Proof.
  destruct (read_manifest_spec requests_get manifest) as (st0 & E & Hb & Ha).
  split.
  - intros Hempty. exists st0. rewrite <-Ha in Hempty.
    unfold main, catalog. rewrite E. simpl.
    by rewrite add_combined_empty.
  - intros rules Hname. unfold combined_group, catalog. rewrite E. simpl.
    assert (Dict.get "blocklists-all" (blocklists st0) = None) as Hnone.
    { apply get_None. rewrite Hb. unfold Dict.keys.
      intros (kv & Hk & [[]%elem_of_nil|Hin]%assign_all_elem)
        %list_elem_of_fmap.
      apply Hname. apply list_elem_of_fmap. by exists kv. }
    destruct (decide (all_rules st0 = ∅)) as [Hempty|Hne].
    + rewrite add_combined_empty by done. congruence.
    + rewrite add_combined_blocklists, get_set_eq by done.
      intros [= <-]. by rewrite <-Ha.
Qed.

End Combined.

(** ** The lines of the manifest *)

(** A line with two commas has three fields; it is not skipped: the text
    after the first comma is taken as the address and requested. *)
Lemma two_fields_or_skipped_counterexample :
  ¬ two_fields_or_skipped (pages []) initial "a,b,c".
Proof.
  intros H. destruct H as [H _]; [done..|].
  assert (length (comma_fields (Str.strip "a,b,c")) ≠ 2) as Hlen
    by (vm_compute; lia).
  apply H in Hlen.
  apply (f_equal (λ r, match r with Ok st => requests st | Raise _ => 0 end))
    in Hlen.
  vm_compute in Hlen. discriminate.
Qed.

Lemma split_comma_1_none s : no_comma s → Str.split_comma_1 s = [s].
Proof.
  unfold no_comma. induction s as [|c s IH]; [done|]. simpl.
  intros [Hc Hs]%andb_true_iff. apply negb_true_iff in Hc.
  by rewrite Hc, (IH Hs).
Qed.

Lemma split_comma_1_first a b :
  no_comma a → Str.split_comma_1 (a +:+ String "," b) = [a; b].
Proof.
  unfold no_comma. induction a as [|c a IH]; [done|].
  rewrite app_cons. simpl.
  intros [Hc Hs]%andb_true_iff. apply negb_true_iff in Hc.
  by rewrite Hc, (IH Hs).
Qed.

Section Manifest.

Variable requests_get : nat → string → option string.

(** C9, amended: a manifest line that is neither blank nor a comment is cut
    at its first comma only.  Without a comma it is skipped with a warning
    and the loop goes on; with one, the trimmed text before the first comma
    is the name and the trimmed text after it, further commas included, is
    the address, which is requested: the group is assigned when the request
    succeeds, and the catalogue stays as it is when it fails. *)
Theorem manifest_line_split_at_first_comma st line :
  Str.strip line ≠ "" →
  Str.startswith_char "#" (Str.strip line) = false →
  (no_comma (Str.strip line) →
   main_step requests_get st line
   = Ok (logging WARNING (Skipping_invalid_line (Str.strip line)) st))
  ∧ (∀ a b,
       Str.strip line = a +:+ String "," b → no_comma a →
       ∃ st', main_step requests_get st line = Ok st'
         ∧ requests st' = S (requests st)
         ∧ (INFO, Fetching_list (Str.strip a) (Str.strip b)) ∈ log st'
         ∧ match requests_get (requests st) (Str.strip b) with
           | Some text =>
               ∃ rules, parse_blocklist text = Ok rules
                 ∧ blocklists st'
                   = Dict.set (Str.strip a) rules (blocklists st)
                 ∧ all_rules st' = all_rules st ∪ rules
           | None =>
               blocklists st' = blocklists st
               ∧ all_rules st' = all_rules st
           end).
Proof.
  intros Hne Hc. unfold main_step.
  rewrite Hc, bool_decide_eq_false_2 by done. simpl. split.
  - intros Hno. by rewrite split_comma_1_none.
  - intros a b E Ha. rewrite E, split_comma_1_first by done. simpl.
    unfold fetch_blocklist. simpl.
    destruct (requests_get (requests st) (Str.strip b)) as [text|].
    + destruct (parse_blocklist_ok text) as [rules Hok].
      rewrite Hok. simpl. eexists. split; [done|]. simpl.
      split; [done|]. split; [set_solver|]. by exists rules.
    + eexists. split; [done|]. simpl. split; [done|].
      split; [set_solver|done].
Qed.

End Manifest.

(** ** The theorems at concrete manifests *)

(** Sources [A] and [B] of the specification's end-to-end scenario. *)
Lemma combined_is_union_witness :
  (NoDup (parsed_sources (pages two_lists) 0 ["A,u1"; "B,u2"]).*1
   ∧ ⋃ (parsed_sources (pages two_lists) 0 ["A,u1"; "B,u2"]).*2 ≠ ∅)
  ∧ combined_is_union_of_groups (pages two_lists) ["A,u1"; "B,u2"]
  ∧ combined_group (pages two_lists) ["A,u1"; "B,u2"]
    = Some {[ ("domain", "dom1.com"); ("domain", "dom2.com");
              ("domain", "dom3.com") ]}
  ∧ match main (pages two_lists) in_elements_order ["B,u2"; "A,u1"] with
    | Ok sites => country_code <$> sites
    | Raise _ => []
    end = code_points <$> ["A"; "B"; "BLOCKLISTS-ALL"].
Proof.
  assert (NoDup (parsed_sources (pages two_lists) 0 ["A,u1"; "B,u2"]).*1)
    as Hnd by compute_done.
  assert (⋃ (parsed_sources (pages two_lists) 0 ["A,u1"; "B,u2"]).*2 ≠ ∅)
    as Hne by compute_done.
  split; [done|]. split; [|split; [vm_refl|]].
  - by apply (proj2 (proj2 (combined_is_union_of_parsed_sources
                              (pages two_lists) ["A,u1"; "B,u2"]))).
  - vm_refl.
Defined.

(** A manifest whose first source has the name of the combined list. *)
Lemma combined_replaces_same_named_source_witness :
  (read_manifest (pages named_like_combined) ["blocklists-all, u1"; "b,u2"]
   = Ok named_like_combined_state
   ∧ Dict.get "blocklists-all" (blocklists named_like_combined_state)
     = Some {[ ("domain", "x.com") ]}
   ∧ all_rules named_like_combined_state ≠ ∅
   ∧ ({[ ("domain", "x.com") ]} : gset Rule)
     ≠ all_rules named_like_combined_state)
  ∧ catalog (pages named_like_combined) ["blocklists-all, u1"; "b,u2"]
    = Ok (add_combined named_like_combined_state)
  ∧ Dict.get "blocklists-all"
      (blocklists (add_combined named_like_combined_state))
    = Some {[ ("domain", "x.com"); ("full", "y.com") ]}
  ∧ ({[ ("domain", "x.com") ]} : gset Rule)
    ⊆ all_rules named_like_combined_state
  ∧ Dict.keys (blocklists (add_combined named_like_combined_state))
    = ["blocklists-all"; "b"]
  ∧ (∀ m, (WARNING, m) ∈ log (add_combined named_like_combined_state) →
          (WARNING, m) ∈ log named_like_combined_state)
  ∧ blocklists (add_combined named_like_combined_state)
    = Dict.set "blocklists-all" (all_rules named_like_combined_state)
        (blocklists named_like_combined_state)
  ∧ ("blocklists-all", {[ ("domain", "x.com") ]})
    ∉ blocklists (add_combined named_like_combined_state)
  ∧ log (add_combined named_like_combined_state)
    = log named_like_combined_state ++ [(INFO, Created_combined_list 2)].
Proof.
  assert (all_rules named_like_combined_state ≠ ∅) as Hne by compute_done.
  assert (({[ ("domain", "x.com") ]} : gset Rule)
          ≠ all_rules named_like_combined_state) as Hdiff by compute_done.
  split; [split_and!; [vm_refl|vm_refl|done|done]|].
  destruct (combined_replaces_same_named_source (pages named_like_combined)
              ["blocklists-all, u1"; "b,u2"] named_like_combined_state
              {[ ("domain", "x.com") ]})
    as (Hc & Hget & Hsub & Hkeys & Hwarn & Hsome & _); [vm_refl..|].
  destruct (Hsome Hne) as (Hset & Hgone & Hlog).
  split_and!; [exact Hc|exact Hget|exact Hsub|exact Hkeys|exact Hwarn
              |exact Hset|exact (Hgone Hdiff)|exact Hlog].
Defined.

(** A manifest whose first source has no rule and whose second fails. *)
Lemma no_combined_group_without_rules_witness :
  ⋃ (parsed_sources (pages only_comments) 0 ["a,u1"; "b,u2"]).*2 = ∅
  ∧ ∃ st0,
      read_manifest (pages only_comments) ["a,u1"; "b,u2"] = Ok st0
      ∧ catalog (pages only_comments) ["a,u1"; "b,u2"] = Ok st0
      ∧ main (pages only_comments) in_elements_order ["a,u1"; "b,u2"]
        = Ok (assemble in_elements_order (blocklists st0)).
Proof.
  assert (⋃ (parsed_sources (pages only_comments) 0 ["a,u1"; "b,u2"]).*2
          = ∅) as Hempty by vm_refl.
  split; [done|].
  by apply (proj1 (no_combined_group_without_rules (pages only_comments)
                     in_elements_order ["a,u1"; "b,u2"])).
Defined.

(** A line with surrounding blanks and a comma inside the address. *)
Lemma manifest_line_split_at_first_comma_witness :
  (Str.strip " ads , http://h/l?a=1,2 " ≠ ""
   ∧ Str.startswith_char "#" (Str.strip " ads , http://h/l?a=1,2 ") = false)
  ∧ (no_comma (Str.strip " ads , http://h/l?a=1,2 ") →
     main_step (pages []) initial " ads , http://h/l?a=1,2 "
     = Ok (logging WARNING
             (Skipping_invalid_line (Str.strip " ads , http://h/l?a=1,2 "))
             initial))
  ∧ (∀ a b,
       Str.strip " ads , http://h/l?a=1,2 " = a +:+ String "," b →
       no_comma a →
       ∃ st', main_step (pages []) initial " ads , http://h/l?a=1,2 " = Ok st'
         ∧ requests st' = S (requests initial)
         ∧ (INFO, Fetching_list (Str.strip a) (Str.strip b)) ∈ log st'
         ∧ match pages [] (requests initial) (Str.strip b) with
           | Some text =>
               ∃ rules, parse_blocklist text = Ok rules
                 ∧ blocklists st'
                   = Dict.set (Str.strip a) rules (blocklists initial)
                 ∧ all_rules st' = all_rules initial ∪ rules
           | None =>
               blocklists st' = blocklists initial
               ∧ all_rules st' = all_rules initial
           end).
Proof.
  split; [split; compute_done|].
  apply (manifest_line_split_at_first_comma (pages []) initial
           " ads , http://h/l?a=1,2 "); compute_done.
Defined.

(** * Further properties *)

(** ** A greedy run and what follows it *)

Lemma span_app p s : s = (span p s).1 +:+ (span p s).2.
Proof.
  induction s as [|c s IH]; simpl; [done|].
  destruct (p c); [|done]. destruct (span p s) as [w r]. simpl in *.
  by rewrite app_cons, <-IH.
Qed.

Lemma span_all p s : Str.all p (span p s).1 = true.
Proof.
  induction s as [|c s IH]; simpl; [done|].
  destruct (p c) eqn:Hc; [|done]. destruct (span p s) as [w r]. simpl in *.
  by rewrite Hc.
Qed.

Lemma span_rest p s : not_starting_with p (span p s).2.
Proof.
  induction s as [|c s IH]; simpl; [done|].
  destruct (p c) eqn:Hc; [|done]. by destruct (span p s) as [w r].
Qed.

Lemma span_decomposed p w r :
  Str.all p w = true → not_starting_with p r → span p (w +:+ r) = (w, r).
Proof.
  intros Hw Hr. induction w as [|c w IH]; simpl.
  - rewrite app_empty_l. destruct r as [|c r]; simpl in *; [done|].
    by rewrite Hr.
  - simpl in Hw. apply andb_true_iff in Hw as [Hc Hw].
    by rewrite Hc, (IH Hw).
Qed.

Lemma head_fmap {A B} (f : A → B) (l : list A) : head (f <$> l) = f <$> head l.
Proof. by destruct l. Qed.

Lemma head_app {A} (l1 l2 : list A) :
  head (l1 ++ l2) = match head l1 with Some x => Some x | None => head l2 end.
Proof. by destruct l1. Qed.

(** A greedy [[class]+] followed by something that cannot start where a
    character of the class stands: only the longest run is left to try. *)
Lemma greedy_plus_then {B} p (h : Re.state → Re.state)
    (F : Re.state → list B) n s g :
  (∀ n' c t g', p c = true → F (h (Re.State n' (String c t) g')) = []) →
  head ((h <$> Re.plus_states p n s g) ≫= F)
  = match span p s with
    | ("", _) => None
    | (w, r) => head (F (h (Re.State (n + Str.length w) r g)))
    end.
Proof.
  intros HF. revert n. induction s as [|c s IH]; intros n; simpl; [done|].
  destruct (p c) eqn:Hc; [|done].
  rewrite fmap_app, bind_app, head_app, IH. simpl. rewrite app_nil_r.
  pose proof (span_app p s) as Happ.
  destruct (span p s) as [[|c' w] r] eqn:Hspan; simpl in *.
  - rewrite app_empty_l in Happ. subst r.
    by replace (n + 1) with (S n) by lia.
  - replace (n + S (S (Str.length w))) with (S (n + S (Str.length w))) by lia.
    destruct (head (F _)) eqn:Hhead; [done|].
    pose proof (span_all p s) as Hall. rewrite Hspan in Hall. simpl in Hall.
    apply andb_true_iff in Hall as [Hc' _].
    rewrite Happ, app_cons. by rewrite HF.
Qed.

Lemma plus_states_head p n s g :
  head (Re.plus_states p n s g)
  = match span p s with
    | ("", _) => None
    | (w, r) => Some (Re.State (n + Str.length w) r g)
    end.
Proof.
  revert n. induction s as [|c s IH]; intros n; simpl; [done|].
  destruct (p c) eqn:Hc; [|done].
  rewrite head_app, IH.
  pose proof (span_app p s) as Happ.
  destruct (span p s) as [[|c' w] r] eqn:Hspan; simpl in *.
  - rewrite app_empty_l in Happ. subst r.
    by replace (n + 1) with (S n) by lia.
  - by replace (n + S (S (Str.length w))) with (S (n + S (Str.length w)))
      by lia.
Qed.

(** The first way to match [([class]+)]: the longest run, which group 1
    then holds. *)
Lemma run_group_plus_head p st :
  head (Re.run (Re.Group (Re.Plus p)) st)
  = match span p (Re.rest st) with
    | ("", _) => None
    | (d, r) => Some (Re.State (Re.pos st + Str.length d) r (Some d))
    end.
Proof.
  simpl. rewrite head_fmap, plus_states_head.
  pose proof (span_app p (Re.rest st)) as Happ.
  destruct (span p (Re.rest st)) as [[|c d] r]; simpl in *; [done|].
  do 2 f_equal. rewrite Happ.
  replace (_ + _ - _) with (Str.length (String c d)) by (simpl; lia).
  by rewrite take_app.
Qed.

Lemma strip_prefix_app pre s : strip_prefix pre (pre +:+ s) = Some s.
Proof.
  induction pre as [|c pre IH]; [done|].
  rewrite app_cons. simpl. by rewrite decide_True.
Qed.

Lemma strip_prefix_Some pre s r : strip_prefix pre s = Some r → s = pre +:+ r.
Proof.
  revert s. induction pre as [|c pre IH]; intros s; simpl.
  - by intros [= ->].
  - destruct s as [|c' s]; [done|].
    destruct (decide (c' = c)) as [->|]; [|done].
    intros ->%IH. by rewrite app_cons.
Qed.

Lemma run_lits pre st :
  Re.run (Re.lits pre) st
  = match strip_prefix pre (Re.rest st) with
    | Some r => [Re.State (Re.pos st + Str.length pre) r (Re.group1 st)]
    | None => []
    end.
Proof.
  revert st. induction pre as [|c pre IH]; intros [n s g].
  - simpl. destruct s; by rewrite Nat.add_0_r.
  - cbn [Re.lits Re.run Re.rest Re.pos Re.group1 strip_prefix Str.length].
    destruct s as [|c' s]; [done|].
    destruct (decide (c' = c)) as [->|]; [|done].
    simpl. rewrite app_nil_r, IH. simpl.
    destruct (strip_prefix pre s); [|done].
    by replace (n + S (Str.length pre)) with (S (n + Str.length pre)) by lia.
Qed.

Lemma run_seq_eq r1 r2 st :
  Re.run (Re.Seq r1 r2) st = Re.run r1 st ≫= Re.run r2.
Proof. done. Qed.

Lemma run_alt_eq r1 r2 st :
  Re.run (Re.Alt r1 r2) st = Re.run r1 st ++ Re.run r2 st.
Proof. done. Qed.

Lemma run_plus_eq p st :
  Re.run (Re.Plus p) st
  = Re.plus_states p (Re.pos st) (Re.rest st) (Re.group1 st).
Proof. done. Qed.

Lemma head_lits_then {B} pre (F : Re.state → list B) st :
  head (Re.run (Re.lits pre) st ≫= F)
  = match strip_prefix pre (Re.rest st) with
    | Some r =>
        head (F (Re.State (Re.pos st + Str.length pre) r (Re.group1 st)))
    | None => None
    end.
Proof.
  rewrite run_lits. destruct (strip_prefix _ _); [|done].
  simpl. by rewrite app_nil_r.
Qed.

Lemma head_alt_lits_then {B} p1 p2 (F : Re.state → list B) st :
  head (Re.run (Re.Alt (Re.lits p1) (Re.lits p2)) st ≫= F)
  = match head (Re.run (Re.lits p1) st ≫= F) with
    | Some x => Some x
    | None => head (Re.run (Re.lits p2) st ≫= F)
    end.
Proof. by rewrite run_alt_eq, bind_app, head_app. Qed.

Lemma match_bol r s :
  Re.match_ (Re.Seq Re.Bol r) s = head (Re.run r (Re.State 0 s None)).
Proof. unfold Re.match_. simpl. by rewrite app_nil_r. Qed.

(** ** The hosts-file pattern *)

Lemma space_not_domain_char c :
  Char.is_space c = true → Char.is_domain_char c = false.
Proof. by_cases_on_char c. Qed.

Lemma hosts_tail_head st :
  head (Re.run hosts_tail st)
  = match span Char.is_space (Re.rest st) with
    | ("", _) => None
    | (ws, r1) =>
        match span Char.is_domain_char r1 with
        | ("", _) => None
        | (d, r2) =>
            Some (Re.State (Re.pos st + Str.length ws + Str.length d) r2
                    (Some d))
        end
    end.
Proof.
  unfold hosts_tail. rewrite run_seq_eq, run_plus_eq.
  rewrite <-(list_fmap_id (Re.plus_states _ _ _ _)).
  rewrite (greedy_plus_then Char.is_space id).
  - destruct (span Char.is_space (Re.rest st)) as [[|c ws] r1]; [done|].
    by rewrite run_group_plus_head.
  - intros n' c t g' Hc. simpl. by rewrite (space_not_domain_char c Hc).
Qed.

Lemma hosts_tail_decomposed n ws d tail g :
  ws ≠ "" → Str.all Char.is_space ws = true → domain_text d →
  not_starting_with Char.is_domain_char tail →
  head (Re.run hosts_tail (Re.State n (ws +:+ d +:+ tail) g))
  = Some (Re.State (n + Str.length ws + Str.length d) tail (Some d)).
Proof.
  intros Hws Hsp [Hd Hdc] Htail. rewrite hosts_tail_head. simpl.
  rewrite (span_decomposed Char.is_space ws (d +:+ tail)); [|done|].
  - destruct ws; [done|].
    rewrite (span_decomposed Char.is_domain_char d tail) by done.
    by destruct d.
  - destruct d as [|c d]; [done|]. rewrite app_cons. simpl in *.
    apply andb_true_iff in Hdc as [Hc _].
    destruct (Char.is_space c) eqn:Hs; [|done].
    by rewrite (space_not_domain_char c Hs) in Hc.
Qed.

Lemma hosts_tail_inv st m :
  head (Re.run hosts_tail st) = Some m →
  ∃ ws d,
    Re.rest st = ws +:+ d +:+ Re.rest m
    ∧ ws ≠ "" ∧ Str.all Char.is_space ws = true
    ∧ domain_text d
    ∧ not_starting_with Char.is_domain_char (Re.rest m)
    ∧ Re.group1 m = Some d.
Proof.
  rewrite hosts_tail_head.
  pose proof (span_app Char.is_space (Re.rest st)) as E1.
  pose proof (span_all Char.is_space (Re.rest st)) as A1.
  destruct (span Char.is_space (Re.rest st)) as [ws r1]. simpl in *.
  destruct ws as [|c ws]; [done|].
  pose proof (span_app Char.is_domain_char r1) as E2.
  pose proof (span_all Char.is_domain_char r1) as A2.
  pose proof (span_rest Char.is_domain_char r1) as R2.
  destruct (span Char.is_domain_char r1) as [d r2]. simpl in *.
  destruct d as [|c' d]; [done|]. intros [= <-]. simpl.
  exists (String c ws), (String c' d). rewrite E1, E2.
  repeat split; done.
Qed.

Lemma hosts_match_decomposed line ip ws d tail :
  hosts_shape line ip ws d tail →
  Re.match_ HOSTS_PATTERN line
  = Some (Re.State (Str.length ip + Str.length ws + Str.length d) tail
            (Some d)).
Proof.
  intros (-> & Hip & Hws & Hsp & Hd & Htail).
  change HOSTS_PATTERN with
    (Re.Seq Re.Bol
       (Re.Seq (Re.Alt (Re.lits "127.0.0.1") (Re.lits "0.0.0.0")) hosts_tail)).
  rewrite match_bol, run_seq_eq, head_alt_lits_then, !head_lits_then.
  cbn [Re.rest Re.pos Re.group1].
  destruct Hip as [-> | ->].
  - by rewrite strip_prefix_app, hosts_tail_decomposed.
  - replace (strip_prefix "127.0.0.1" _) with (@None string) by done.
    by rewrite strip_prefix_app, hosts_tail_decomposed.
Qed.

Lemma hosts_match_inv line m :
  Re.match_ HOSTS_PATTERN line = Some m →
  ∃ ip ws d, hosts_shape line ip ws d (Re.rest m) ∧ Re.group1 m = Some d.
Proof.
  change HOSTS_PATTERN with
    (Re.Seq Re.Bol
       (Re.Seq (Re.Alt (Re.lits "127.0.0.1") (Re.lits "0.0.0.0")) hosts_tail)).
  rewrite match_bol, run_seq_eq, head_alt_lits_then, !head_lits_then.
  cbn [Re.rest Re.pos Re.group1].
  assert (∀ ip, ip = "127.0.0.1" ∨ ip = "0.0.0.0" →
    match strip_prefix ip line with
    | Some r => head (Re.run hosts_tail (Re.State (0 + Str.length ip) r None))
    | None => None
    end = Some m →
    ∃ ip ws d, hosts_shape line ip ws d (Re.rest m) ∧ Re.group1 m = Some d)
    as Hcase.
  { intros ip Hip. destruct (strip_prefix ip line) as [r|] eqn:E; [|done].
    apply strip_prefix_Some in E as ->.
    intros (ws & d & Er & Hws & Hsp & Hd & Htail & Hg)%hosts_tail_inv.
    simpl in Er. subst r. exists ip, ws, d. split; [|done].
    exact (conj eq_refl (conj Hip (conj Hws (conj Hsp (conj Hd Htail))))). }
  destruct (match strip_prefix "127.0.0.1" line with
            | Some _ => _ | None => _ end) as [m'|] eqn:E1.
  - intros [= ->]. apply (Hcase "127.0.0.1"); auto.
  - apply (Hcase "0.0.0.0"); auto.
Qed.

(** ** The ad-blocking pattern *)

Lemma caret_not_domain_char : Char.is_domain_char "^" = false.
Proof. done. Qed.

Lemma adguard_tail_head st :
  head (Re.run adguard_tail st)
  = match span Char.is_domain_char (Re.rest st) with
    | ("", _) => None
    | (d, String c tail) =>
        if decide (c = "^"%char)
        then Some (Re.State (S (Re.pos st + Str.length d)) tail (Some d))
        else None
    | (_, "") => None
    end.
Proof.
  unfold adguard_tail. rewrite run_seq_eq.
  change (Re.run (Re.Group (Re.Plus Char.is_domain_char)) st)
    with ((λ st', Re.State (Re.pos st') (Re.rest st')
                    (Some (Str.take (Re.pos st' - Re.pos st) (Re.rest st))))
          <$> Re.plus_states Char.is_domain_char (Re.pos st) (Re.rest st)
                (Re.group1 st)).
  rewrite greedy_plus_then.
  - pose proof (span_app Char.is_domain_char (Re.rest st)) as Happ.
    destruct (span Char.is_domain_char (Re.rest st)) as [[|c0 d] r];
      [done|].
    simpl in Happ. destruct r as [|c tail]; [done|]. simpl.
    destruct (decide (c = "^"%char)); [|done]. simpl. do 3 f_equal.
    rewrite Happ.
    replace (_ + _ - _) with (Str.length (String c0 d)) by (simpl; lia).
    by rewrite take_app.
  - intros n' c t g' Hc. simpl.
    destruct (decide (c = "^"%char)) as [->|]; [|done].
    by rewrite caret_not_domain_char in Hc.
Qed.

Lemma adguard_match_decomposed line d tail :
  adguard_shape line d tail →
  Re.match_ ADGUARD_PATTERN line
  = Some (Re.State (S (2 + Str.length d)) tail (Some d)).
Proof.
  intros [-> [Hd Hdc]].
  change ADGUARD_PATTERN with
    (Re.Seq Re.Bol (Re.Seq (Re.lits "||") adguard_tail)).
  rewrite match_bol, run_seq_eq, head_lits_then.
  cbn [Re.rest Re.pos Re.group1]. rewrite strip_prefix_app.
  rewrite adguard_tail_head. cbn [Re.rest Re.pos].
  rewrite (span_decomposed Char.is_domain_char d (String "^" tail));
    [|done|apply caret_not_domain_char].
  destruct d; [done|]. by rewrite decide_True.
Qed.

Lemma adguard_match_inv line m :
  Re.match_ ADGUARD_PATTERN line = Some m →
  ∃ d, adguard_shape line d (Re.rest m) ∧ Re.group1 m = Some d.
Proof.
  change ADGUARD_PATTERN with
    (Re.Seq Re.Bol (Re.Seq (Re.lits "||") adguard_tail)).
  rewrite match_bol, run_seq_eq, head_lits_then.
  cbn [Re.rest Re.pos Re.group1].
  destruct (strip_prefix "||" line) as [r|] eqn:E; [|done].
  apply strip_prefix_Some in E as ->.
  rewrite adguard_tail_head. cbn [Re.rest Re.pos].
  pose proof (span_app Char.is_domain_char r) as Happ.
  pose proof (span_all Char.is_domain_char r) as Hall.
  destruct (span Char.is_domain_char r) as [[|c0 d] r']; [done|].
  simpl in Happ, Hall. destruct r' as [|c tail]; [done|].
  destruct (decide (c = "^"%char)) as [->|]; [|done].
  intros [= <-]. simpl. exists (String c0 d). split; [|done].
  split; [by rewrite Happ|]. split; done.
Qed.

(** ** Lines in the two marked dialects *)

Lemma raw_match_needs_domain_char c t :
  Char.is_domain_char c = false →
  Re.match_ RAW_DOMAIN_PATTERN (String c t) = None.
Proof.
  intros Hc. destruct (Re.match_ _ _) as [m|] eqn:Hm; [|done].
  apply head_Some_elem_of, raw_pattern_elem in Hm
    as ([|c' x] & y & Hx & Hax & _ & _ & E & _); [done|].
  rewrite !app_cons in E. simplify_eq. simpl in Hax.
  by rewrite Hc in Hax.
Qed.

(** X1: a line whose trimmed form is [127.0.0.1] or [0.0.0.0], white space,
    and then a longest run [d] of word characters, dots and hyphens gives
    the rule of kind [full] with [d] lower-cased, whatever follows the
    run. *)
Theorem hosts_dialect_rule rules line ip ws d tail :
  hosts_shape (Str.strip line) ip ws d tail →
  parse_line rules line = Ok ({[ ("full", Str.lower d) ]} ∪ rules).
Proof.
  intros Hshape. unfold parse_line.
  rewrite (hosts_match_decomposed _ _ _ _ _ Hshape).
  destruct Hshape as (-> & [-> | ->] & _); done.
Qed.

(** An entry with several blanks, capitals and a comment after the
    domain. *)
Lemma hosts_dialect_rule_witness :
  hosts_shape (Str.strip "  0.0.0.0   Ads.Example.com # tracker ")
    "0.0.0.0" "   " "Ads.Example.com" " # tracker"
  ∧ parse_line ∅ "  0.0.0.0   Ads.Example.com # tracker "
    = Ok {[ ("full", "ads.example.com") ]}.
Proof.
  assert (hosts_shape (Str.strip "  0.0.0.0   Ads.Example.com # tracker ")
            "0.0.0.0" "   " "Ads.Example.com" " # tracker") as H.
  { unfold hosts_shape, domain_text. split_and!; [vm_refl|by right|done..]. }
  split; [done|]. rewrite (hosts_dialect_rule ∅ _ _ _ _ _ H). vm_refl.
Defined.

(** X2: a line whose trimmed form is two bars, a run [d] of word characters,
    dots and hyphens, and a caret gives the rule of kind [domain] with [d]
    lower-cased, whatever follows the caret; a line that starts with two
    bars and is not of this form gives no rule. *)
Theorem adguard_dialect_rule rules line :
  (∀ d tail,
     adguard_shape (Str.strip line) d tail →
     parse_line rules line = Ok ({[ ("domain", Str.lower d) ]} ∪ rules))
  ∧ (∀ body,
       Str.strip line = "||" +:+ body →
       (∀ d tail, ¬ adguard_shape (Str.strip line) d tail) →
       parse_line rules line = Ok rules).
Proof.
  split.
  - intros d tail Hshape. unfold parse_line.
    rewrite (adguard_match_decomposed _ _ _ Hshape).
    destruct Hshape as (-> & _). done.
  - intros body E Hno. unfold parse_line. rewrite E.
    change ("||" +:+ body) with (String "|" (String "|" body)).
    replace (Re.match_ HOSTS_PATTERN _) with (@None Re.state) by done.
    destruct (Re.match_ ADGUARD_PATTERN _) as [m|] eqn:Ha.
    { apply adguard_match_inv in Ha as (d & Hshape & _).
      destruct (Hno d (Re.rest m)). by rewrite E. }
    simpl. destruct (split_first "|" (String "|" body) eq_refl)
      as (tok & parts & tail & -> & Etok & _ & Hne & _).
    simpl. destruct tok as [|c tok]; [done|].
    rewrite app_cons in Etok. simplify_eq.
    by rewrite (raw_match_needs_domain_char "|" tok).
Qed.

(** A filter with an option after the caret, and one without a caret. *)
Lemma adguard_dialect_rule_witness :
  adguard_shape (Str.strip "||Track.Example.net^$third-party")
    "Track.Example.net" "$third-party"
  ∧ parse_line ∅ "||Track.Example.net^$third-party"
    = Ok {[ ("domain", "track.example.net") ]}
  ∧ parse_line ∅ "||track.example.net/ads" = Ok ∅.
Proof.
  assert (adguard_shape (Str.strip "||Track.Example.net^$third-party")
            "Track.Example.net" "$third-party") as H by done.
  split; [done|]. split.
  - rewrite (proj1 (adguard_dialect_rule ∅ _) _ _ H). vm_refl.
  - vm_refl.
Defined.

(** ** Where a rule comes from *)

Lemma Ok_inj {A} (x y : A) : Ok x = Ok y → x = y.
Proof.
  intros H.
  by apply (f_equal (λ r, match r with Ok a => a | Raise _ => x end)) in H.
Qed.

Lemma singleton_union_inv (x y : Rule) :
  ({[ x ]} ∪ ∅ : gset Rule) = {[ y ]} → x = y.
Proof. intros H. assert (x ∈ ({[ y ]} : gset Rule)) by set_solver. set_solver. Qed.

Lemma empty_not_singleton (y : Rule) : (∅ : gset Rule) ≠ {[ y ]}.
Proof. intros H. assert (y ∈ (∅ : gset Rule)) by set_solver. set_solver. Qed.

(** X3: a line that alone gives the rule [(kind, v)] is a line of one of the
    three dialects, and [v] is the lower-cased text the dialect marks: kind
    [full] comes from a hosts-file line only, kind [domain] from an
    ad-blocking line or from a first word that [RAW_DOMAIN_PATTERN]
    accepts: one or more word characters, dots and hyphens before its last
    dot and one or more word characters after it, as in [a.org] and in
    [..com]. *)
Theorem rule_provenance line kind v :
  parse_line ∅ line = Ok {[ (kind, v) ]} →
  (kind = "full"
   ∧ ∃ ip ws d tail,
       hosts_shape (Str.strip line) ip ws d tail ∧ v = Str.lower d)
  ∨ (kind = "domain"
     ∧ ((∃ d tail, adguard_shape (Str.strip line) d tail ∧ v = Str.lower d)
        ∨ (∃ tok, head (Str.split (Str.strip line)) = Some tok
                  ∧ raw_domain_shape tok = true ∧ v = Str.lower tok))).
Proof.
  unfold parse_line.
  destruct (_ || _) eqn:Hbc.
  { intros H%Ok_inj. by apply empty_not_singleton in H. }
  destruct (Re.match_ HOSTS_PATTERN _) as [m|] eqn:Hh.
  { apply hosts_match_inv in Hh as (ip & ws & d & Hshape & Hg).
    rewrite (group1_lower_ok _ _ Hg). simpl.
    intros [= <- <-]%Ok_inj%singleton_union_inv. left. split; [done|].
    by exists ip, ws, d, (Re.rest m). }
  destruct (Re.match_ ADGUARD_PATTERN _) as [m|] eqn:Ha.
  { apply adguard_match_inv in Ha as (d & Hshape & Hg).
    rewrite (group1_lower_ok _ _ Hg). simpl.
    intros [= <- <-]%Ok_inj%singleton_union_inv. right. split; [done|].
    left. by exists d, (Re.rest m). }
  apply orb_false_iff in Hbc as [Hne%bool_decide_eq_false _].
  destruct (strip_head line) as [?|(c & t & E & Hc)]; [done|].
  rewrite E.
  destruct (split_first c t Hc) as (tok & parts & tail & -> & _ & Hns & _).
  simpl. pose proof (raw_match_word tok Hns) as Hraw.
  destruct (Re.match_ RAW_DOMAIN_PATTERN tok) as [m|].
  - destruct Hraw as [Hshape Hg]. rewrite (group1_lower_ok _ _ Hg). simpl.
    intros [= <- <-]%Ok_inj%singleton_union_inv. right. split; [done|].
    right. by exists tok.
  - intros H%Ok_inj. by apply empty_not_singleton in H.
Qed.

(** A bare domain with a trailing word. *)
Lemma rule_provenance_witness :
  parse_line ∅ "Example.ORG  # listed" = Ok {[ ("domain", "example.org") ]}
  ∧ ((("domain" : string) = "full"
      ∧ ∃ ip ws d tail,
          hosts_shape (Str.strip "Example.ORG  # listed") ip ws d tail
          ∧ "example.org" = Str.lower d)
     ∨ (("domain" : string) = "domain"
        ∧ ((∃ d tail,
              adguard_shape (Str.strip "Example.ORG  # listed") d tail
              ∧ "example.org" = Str.lower d)
           ∨ (∃ tok,
                head (Str.split (Str.strip "Example.ORG  # listed"))
                = Some tok
                ∧ raw_domain_shape tok = true
                ∧ "example.org" = Str.lower tok)))).
Proof.
  assert (parse_line ∅ "Example.ORG  # listed"
          = Ok {[ ("domain", "example.org") ]}) as H by vm_refl.
  split; [done|]. by apply (rule_provenance _ _ _ H).
Defined.

(** ** The rule set as the union of its lines *)

Lemma parse_line_alone line :
  parse_line ∅ line = Ok ∅ ∨ ∃ r, parse_line ∅ line = Ok {[ r ]}.
Proof.
  destruct (parse_line_cases ∅ line) as [?|(kind & d & _ & _ & E)]; [by left|].
  right. exists (kind, Str.lower d). rewrite E. f_equal. set_solver.
Qed.

Lemma for_each_parse_line_iff lines :
  ∀ s s', for_each parse_line s lines = Ok s' →
    ∀ r, r ∈ s' ↔
         r ∈ s ∨ ∃ line, line ∈ lines ∧ parse_line ∅ line = Ok {[ r ]}.
Proof.
  induction lines as [|l lines IH]; intros s s'; simpl.
  - intros [= <-] r. split; [by left|]. intros [?|(? & []%elem_of_nil & _)].
    done.
  - rewrite parse_line_mono.
    destruct (parse_line_alone l) as [E|[r0 E]]; rewrite E; simpl;
      intros H r; rewrite (IH _ _ H r); clear H.
    + split.
      * intros [Hr|(line & Hin & Hl)]; [left; set_solver|].
        right. exists line. split; [by right|done].
      * intros [Hr|(line & [->|Hin]%elem_of_cons & Hl)].
        -- left. set_solver.
        -- rewrite E in Hl. apply Ok_inj in Hl.
           by apply empty_not_singleton in Hl.
        -- right. by exists line.
    + split.
      * intros [[->%elem_of_singleton|Hr]%elem_of_union|(line & Hin & Hl)].
        -- right. exists l. split; [left|done].
        -- by left.
        -- right. exists line. split; [by right|done].
      * intros [Hr|(line & [->|Hin]%elem_of_cons & Hl)].
        -- left. set_solver.
        -- rewrite E in Hl. apply Ok_inj in Hl.
           assert (r = r0) as -> by set_solver. left. set_solver.
        -- right. by exists line.
Qed.

(** X4: a rule is in the rule set of a text exactly when some line of the
    text, taken alone, gives it: no line suppresses or alters what another
    line gives. *)
Theorem rule_iff_some_line content :
  ∃ rules, parse_blocklist content = Ok rules
    ∧ ∀ r, r ∈ rules ↔
           ∃ line, line ∈ Str.splitlines content
                   ∧ parse_line ∅ line = Ok {[ r ]}.
Proof.
  destruct (parse_blocklist_ok content) as [rules Hok].
  exists rules. split; [done|]. intros r.
  rewrite (for_each_parse_line_iff _ _ _ Hok r). set_solver.
Qed.

(** X5: two texts with the same lines, in whatever order and however often
    each line stands, have the same rule set. *)
Theorem same_lines_same_rules content1 content2 :
  list_to_set (Str.splitlines content1)
  =@{gset string} list_to_set (Str.splitlines content2) →
  parse_blocklist content1 = parse_blocklist content2.
Proof.
  intros Hlines.
  destruct (parse_blocklist_ok content1) as [rules1 H1].
  destruct (parse_blocklist_ok content2) as [rules2 H2].
  rewrite H1, H2. f_equal. apply set_eq. intros r.
  rewrite (for_each_parse_line_iff _ _ _ H1 r),
    (for_each_parse_line_iff _ _ _ H2 r).
  assert (∀ l, l ∈ Str.splitlines content1 ↔ l ∈ Str.splitlines content2)
    as Hl.
  { intros l. rewrite <-!(elem_of_list_to_set (C:=gset string)).
    by rewrite Hlines. }
  set_solver.
Qed.

(** The lines of one text reordered and repeated in the other. *)
Lemma same_lines_same_rules_witness :
  list_to_set (Str.splitlines (unlines ["a.org"; "0.0.0.0 b.org"]))
  =@{gset string}
    list_to_set
      (Str.splitlines (unlines ["0.0.0.0 b.org"; "a.org"; "0.0.0.0 b.org"]))
  ∧ parse_blocklist (unlines ["a.org"; "0.0.0.0 b.org"])
    = parse_blocklist (unlines ["0.0.0.0 b.org"; "a.org"; "0.0.0.0 b.org"]).
Proof.
  assert (list_to_set (Str.splitlines (unlines ["a.org"; "0.0.0.0 b.org"]))
          =@{gset string}
            list_to_set
              (Str.splitlines
                 (unlines ["0.0.0.0 b.org"; "a.org"; "0.0.0.0 b.org"])))
    as H by vm_refl.
  split; [done|]. by apply same_lines_same_rules.
Defined.

(** ** The entries of the output *)

Lemma site_of_domain iteration name rules :
  domain (site_of iteration (name, rules))
  = entry_of <$> iterate iteration name rules.
Proof.
  simpl. apply list_fmap_ext. by intros _ [k v] _.
Qed.

Lemma elem_of_iterate iteration name rules r :
  r ∈ iterate iteration name rules ↔ r ∈ rules.
Proof. by rewrite iterate_once, elem_of_elements. Qed.

Lemma NoDup_iterate iteration name rules :
  NoDup (iterate iteration name rules).
Proof. rewrite iterate_once. apply NoDup_elements. Qed.

Lemma length_iterate iteration name rules :
  length (iterate iteration name rules) = size rules.
Proof. by rewrite iterate_once. Qed.

Lemma entry_of_canonical r :
  canonical r →
  (type (entry_of r) = Full ∨ type (entry_of r) = RootDomain)
  ∧ value (entry_of r) ≠ ""
  ∧ Str.lower (value (entry_of r)) = value (entry_of r)
  ∧ Str.strip (value (entry_of r)) = value (entry_of r).
Proof.
  intros Hr. pose proof (canonical_domain r Hr) as (Hl & Hne & Hs).
  destruct Hr as [[Hk|Hk] _]; destruct r as [k v]; simpl in *; subst k;
    repeat split; auto.
Qed.

Lemma entry_of_inj r1 r2 :
  canonical r1 → canonical r2 → entry_of r1 = entry_of r2 → r1 = r2.
Proof.
  intros [[H1|H1] _] [[H2|H2] _]; destruct r1 as [k1 v1], r2 as [k2 v2];
    simpl in *; subst k1 k2; unfold entry_of; simpl; intros [= ?];
    by subst.
Qed.

Section Output.

Variable requests_get : nat → string → option string.
Variable iteration : set_iteration.

Lemma parsed_sources_canonical manifest :
  ∀ n name rules,
    (name, rules) ∈ parsed_sources requests_get n manifest →
    ∀ r, r ∈ rules → canonical r.
Proof.
  induction manifest as [|line manifest IH]; intros n name rules; simpl.
  { by intros ?%elem_of_nil. }
  destruct (_ || _); [by apply IH|].
  destruct (unpack2 _) as [[name' url]|]; [|by apply IH].
  destruct (requests_get n url) as [text|]; [|by apply IH].
  destruct (parse_blocklist text) as [rules'|] eqn:Hp;
    [|by intros ?%elem_of_nil].
  intros [[= -> ->]|Hin]%elem_of_cons; [|by eapply IH].
  by eapply parse_blocklist_canonical.
Qed.

(** Every rule of every group of the finished catalogue is canonical. *)
Lemma catalog_canonical manifest st name rules :
  catalog requests_get manifest = Ok st →
  (name, rules) ∈ blocklists st →
  ∀ r, r ∈ rules → canonical r.
Proof.
  unfold catalog.
  destruct (read_manifest_spec requests_get manifest) as (st0 & E & Hb & Ha).
  rewrite E. simpl. intros <-%Ok_inj.
  assert (∀ name rules, (name, rules) ∈ blocklists st0 →
                        ∀ r, r ∈ rules → canonical r) as Hgroups.
  { intros name' rules'. rewrite Hb.
    intros [[]%elem_of_nil|Hin]%assign_all_elem.
    by eapply parsed_sources_canonical. }
  assert (∀ r, r ∈ all_rules st0 → canonical r) as Hall.
  { intros r. rewrite Ha.
    intros (rules' & ([name' rules''] & -> & Hin)%list_elem_of_fmap & Hr)
      %elem_of_union_list.
    by eapply parsed_sources_canonical. }
  destruct (decide (all_rules st0 = ∅)) as [Hempty|Hne].
  - rewrite add_combined_empty by done. apply Hgroups.
  - rewrite add_combined_blocklists by done.
    intros [[= -> ->]|Hin]%elem_set; [done|]. by eapply Hgroups.
Qed.

(** The run returns, and every group of the output is made of one entry of
    the finished catalogue. *)
Lemma main_groups manifest :
  ∃ st sites,
    catalog requests_get manifest = Ok st
    ∧ main requests_get iteration manifest = Ok sites
    ∧ ∀ g, g ∈ sites ↔
           ∃ name rules, (name, rules) ∈ blocklists st
                         ∧ g = site_of iteration (name, rules).
Proof.
  destruct (read_manifest_spec requests_get manifest) as (st0 & E & _).
  exists (add_combined st0),
    (assemble iteration (blocklists (add_combined st0))).
  unfold main, catalog. rewrite E. simpl. split; [done|]. split; [done|].
  intros g. rewrite assemble_perm, list_elem_of_fmap. split.
  - intros ([name rules] & -> & Hin). by exists name, rules.
  - intros (name & rules & Hin & ->). by exists (name, rules).
Qed.

(** X6: whatever the manifest holds and the network returns, and in
    whatever order the rule sets are visited, the run returns its list of
    groups, and every entry of every group has kind Full or RootDomain,
    never Regex or Plain, and a value that is not empty, lower-cased and
    free of surrounding white space. *)
Theorem output_entries_full_or_root_domain manifest :
  ∃ sites, main requests_get iteration manifest = Ok sites
    ∧ ∀ g e, g ∈ sites → e ∈ domain g →
        (type e = Full ∨ type e = RootDomain)
        ∧ value e ≠ ""
        ∧ Str.lower (value e) = value e
        ∧ Str.strip (value e) = value e.
Proof.
  destruct (main_groups manifest) as (st & sites & Hc & Hm & Hg).
  exists sites. split; [done|]. intros g e.
  intros (name & rules & Hin & ->)%Hg. rewrite site_of_domain.
  intros (r & -> & Hr%elem_of_iterate)%list_elem_of_fmap.
  apply entry_of_canonical. by eapply catalog_canonical.
Qed.

(** X7: in whatever order the rule sets are visited, no group of the
    output lists an entry twice: every group is that of an entry of the
    finished catalogue, with the upper-cased name as its label and one
    entry for each rule of the rule set. *)
Theorem output_entries_distinct manifest :
  ∃ st sites,
    catalog requests_get manifest = Ok st
    ∧ main requests_get iteration manifest = Ok sites
    ∧ ∀ g, g ∈ sites →
        NoDup (domain g)
        ∧ ∃ name rules,
            (name, rules) ∈ blocklists st
            ∧ country_code g = Str.upper name
            ∧ length (domain g) = size rules
            ∧ ∀ e, e ∈ domain g ↔ ∃ r, r ∈ rules ∧ e = entry_of r.
Proof.
  destruct (main_groups manifest) as (st & sites & Hc & Hm & Hg).
  exists st, sites. split; [done|]. split; [done|]. intros g.
  intros (name & rules & Hin & ->)%Hg. rewrite site_of_domain. split.
  - apply NoDup_fmap_2_strong; [|apply NoDup_iterate].
    intros r1 r2 H1%elem_of_iterate H2%elem_of_iterate.
    apply entry_of_inj; by eapply catalog_canonical.
  - exists name, rules. split; [done|]. split; [done|]. split.
    + by rewrite length_fmap, length_iterate.
    + intros e. rewrite list_elem_of_fmap. split.
      * intros (r & -> & Hr%elem_of_iterate). by exists r.
      * intros (r & Hr & ->). exists r. by rewrite elem_of_iterate.
Qed.

End Output.

(** ** The groups of the catalogue *)

Lemma assign_all_get {V} (l : list (string * V)) d name :
  Dict.get name (assign_all d l)
  = match last (filter (λ kv, kv.1 = name) l) with
    | Some kv => Some kv.2
    | None => Dict.get name d
    end.
Proof.
  revert d. induction l as [|[k v] l IH]; intros d; [done|].
  cbn [assign_all foldl]. change (foldl _ ?d l) with (assign_all d l).
  rewrite IH, filter_cons. simpl.
  destruct (decide (k = name)) as [->|Hne].
  - rewrite last_cons. destruct (last (filter _ l)); [done|].
    by rewrite get_set_eq.
  - destruct (last (filter _ l)); [done|]. by rewrite get_set_ne.
Qed.

Section Catalogue.

Variable requests_get : nat → string → option string.

(** X8: when the manifest has been read, the catalogue holds one group for
    each name under which a source was fetched and parsed, and the group of
    a name is the rule set of the last such source; a later line of the same
    name whose request failed changes nothing. *)
Theorem catalogue_last_source_wins manifest :
  ∃ st0, read_manifest requests_get manifest = Ok st0
    ∧ NoDup (Dict.keys (blocklists st0))
    ∧ (∀ name, name ∈ Dict.keys (blocklists st0) ↔
               name ∈ (parsed_sources requests_get 0 manifest).*1)
    ∧ ∀ name,
        Dict.get name (blocklists st0)
        = snd <$> last (filter (λ kv, kv.1 = name)
                          (parsed_sources requests_get 0 manifest)).
Proof.
  destruct (read_manifest_spec requests_get manifest) as (st0 & E & Hb & _).
  exists st0. split; [done|].
  assert (∀ name,
    Dict.get name (blocklists st0)
    = snd <$> last (filter (λ kv, kv.1 = name)
                      (parsed_sources requests_get 0 manifest))) as Hget.
  { intros name. rewrite Hb, assign_all_get.
    by destruct (last _). }
  split; [by eapply read_manifest_keys|]. split; [|done].
  intros name. split.
  - intros Hin. destruct (Dict.get name (blocklists st0)) as [v|] eqn:Hv.
    + rewrite Hget in Hv.
      destruct (last _) as [kv|] eqn:Hl; [|done].
      apply last_Some_elem_of, list_elem_of_filter in Hl as [<- Hl].
      by apply list_elem_of_fmap_2.
    + by apply get_None in Hv.
  - intros (kv & -> & Hin)%list_elem_of_fmap.
    apply dec_stable. intros Hout%get_None. rewrite Hget in Hout.
    destruct (last _) as [?|] eqn:Hl; [done|].
    apply last_None in Hl.
    assert (kv ∈ filter (λ kv', kv'.1 = kv.1)
                   (parsed_sources requests_get 0 manifest)) as Hf
      by (by apply list_elem_of_filter).
    rewrite Hl in Hf. by apply elem_of_nil in Hf.
Qed.

(** X9: in the finished catalogue every rule of every group is a rule of
    the group [blocklists-all], which exists as soon as some group has a
    rule. *)
Theorem every_rule_in_combined_group manifest :
  ∃ st, catalog requests_get manifest = Ok st
    ∧ ∀ name rules r,
        Dict.get name (blocklists st) = Some rules → r ∈ rules →
        ∃ all, Dict.get "blocklists-all" (blocklists st) = Some all
               ∧ r ∈ all.
Proof.
  destruct (read_manifest_spec requests_get manifest) as (st0 & E & _).
  exists (add_combined st0). unfold catalog. rewrite E. split; [done|].
  intros name rules r Hget Hr.
  assert (∀ rules', Dict.get name (blocklists st0) = Some rules' →
                    rules' ⊆ all_rules st0) as Hsub.
  { intros rules' H. eapply read_manifest_group_subset; [exact E|].
    by apply get_Some_elem. }
  destruct (decide (all_rules st0 = ∅)) as [Hempty|Hne].
  - rewrite add_combined_empty in Hget by done.
    apply Hsub in Hget. set_solver.
  - rewrite add_combined_blocklists in * by done.
    exists (all_rules st0). split; [apply get_set_eq|].
    destruct (decide ("blocklists-all" = name)) as [<-|Hn].
    + rewrite get_set_eq in Hget. by simplify_eq.
    + rewrite get_set_ne in Hget by done. by apply (Hsub rules).
Qed.

End Catalogue.

(** ** Requests, warnings and errors *)

Lemma split_comma_1_cases s :
  (no_comma s ∧ Str.split_comma_1 s = [s])
  ∨ (Str.all (λ c, negb (Char.ord c =? 44)%N) s = false
     ∧ ∃ a b, Str.split_comma_1 s = [a; b] ∧ no_comma a
              ∧ s = a +:+ String "," b).
Proof.
  unfold no_comma. induction s as [|c s IH]; [by left|]. simpl.
  destruct (Char.ord c =? 44)%N eqn:Hc; simpl.
  - right. split; [done|]. exists "", s. repeat split.
    rewrite app_empty_l. f_equal.
    apply N.eqb_eq in Hc. unfold Char.ord in Hc.
    by rewrite <-(ascii_N_embedding c), Hc.
  - destruct IH as [[Hs ->]|[Hs (a & b & -> & Ha & ->)]].
    + left. by rewrite Hs.
    + right. split; [done|]. exists (String c a), b.
      simpl. rewrite Hc, Ha. by rewrite app_cons.
Qed.

Lemma count_level_app lv l1 l2 :
  count_level lv (l1 ++ l2) = count_level lv l1 + count_level lv l2.
Proof. unfold count_level. by rewrite filter_app, List.length_app. Qed.

Lemma count_level_singleton lv lv' m :
  count_level lv [(lv', m)] = if decide (lv' = lv) then 1 else 0.
Proof.
  unfold count_level. rewrite filter_cons. simpl. by destruct (decide _).
Qed.

Section Requests.

Variable requests_get : nat → string → option string.

Lemma main_step_counts st line :
  ∃ st', main_step requests_get st line = Ok st'
    ∧ requests st'
      = requests st + (if is_source_line line then 1 else 0)
    ∧ count_level WARNING (log st')
      = count_level WARNING (log st)
        + (if is_invalid_line line then 1 else 0)
    ∧ count_level ERROR (log st')
      + length (parsed_sources requests_get (requests st) [line])
      = count_level ERROR (log st)
        + (if is_source_line line then 1 else 0)
    ∧ (∀ manifest,
         parsed_sources requests_get (requests st) (line :: manifest)
         = parsed_sources requests_get (requests st) [line]
           ++ parsed_sources requests_get (requests st') manifest).
Proof.
  unfold main_step, is_source_line, is_invalid_line, manifest_comment.
  cbn [parsed_sources].
  destruct (_ || _); simpl.
  { exists st. repeat split; lia. }
  destruct (split_comma_1_cases (Str.strip line))
    as [[Hno ->]|[Hno (a & b & -> & Ha & E)]]; rewrite Hno; simpl.
  { eexists. split; [reflexivity|]. simpl.
    rewrite ?count_level_app, ?count_level_singleton. simpl.
    repeat split; lia. }
  unfold fetch_blocklist. simpl.
  destruct (requests_get (requests st) (Str.strip b)) as [text|].
  - destruct (parse_blocklist_ok text) as [rules Hok]. rewrite Hok. simpl.
    eexists. split; [reflexivity|]. simpl.
    rewrite ?count_level_app, ?count_level_singleton. simpl.
    repeat split; lia.
  - eexists. split; [reflexivity|]. simpl.
    rewrite ?count_level_app, ?count_level_singleton. simpl.
    repeat split; lia.
Qed.

Lemma for_each_main_step_counts manifest :
  ∀ st, ∃ st', for_each (main_step requests_get) st manifest = Ok st'
    ∧ requests st'
      = requests st + length (filter is_source_line manifest)
    ∧ count_level WARNING (log st')
      = count_level WARNING (log st)
        + length (filter is_invalid_line manifest)
    ∧ count_level ERROR (log st')
      + length (parsed_sources requests_get (requests st) manifest)
      = count_level ERROR (log st)
        + length (filter is_source_line manifest).
Proof.
  induction manifest as [|line manifest IH]; intros st.
  - exists st. simpl. repeat split; lia.
  - destruct (main_step_counts st line)
      as (st1 & E1 & Hr1 & Hw1 & He1 & Hsplit).
    destruct (IH st1) as (st' & E & Hr & Hw & He).
    exists st'. rewrite (Hsplit manifest). cbn [for_each]. rewrite E1.
    split; [done|]. rewrite !filter_cons, List.length_app.
    destruct (is_source_line line), (is_invalid_line line); simpl in *;
      repeat split; lia.
Qed.

(** X10: reading the manifest makes exactly one request for each line that
    has a name and an address, and none for any other line; it logs one
    warning for each line that has no comma and is neither blank nor a
    comment; and every request ends either in a parsed source or in one
    logged error. *)
Theorem one_request_per_source_line manifest :
  ∃ st0, read_manifest requests_get manifest = Ok st0
    ∧ requests st0 = length (filter is_source_line manifest)
    ∧ count_level WARNING (log st0)
      = length (filter is_invalid_line manifest)
    ∧ count_level ERROR (log st0)
      + length (parsed_sources requests_get 0 manifest)
      = requests st0.
Proof.
  destruct (for_each_main_step_counts manifest initial)
    as (st0 & E & Hr & Hw & He).
  exists st0. split; [done|]. simpl in *. repeat split; lia.
Qed.

End Requests.

(** ** Trimming *)

Lemma lstrip_idem_head c t :
  Char.is_space c = false → Str.lstrip (String c t) = String c t.
Proof. intros Hc. simpl. by rewrite Hc. Qed.

Lemma rstrip_idem s : Str.rstrip (Str.rstrip s) = Str.rstrip s.
Proof.
  induction s as [|c s IH]; [done|]. simpl.
  destruct (Str.rstrip s) as [|c' r] eqn:E.
  - destruct (Char.is_space c) eqn:Hc; [done|]. simpl. by rewrite Hc.
  - change (Str.rstrip (String c (String c' r)))
      with (match Str.rstrip (String c' r) with
            | "" => if Char.is_space c then "" else String c ""
            | r' => String c r'
            end).
    by rewrite IH.
Qed.

Lemma strip_idem s : Str.strip (Str.strip s) = Str.strip s.
Proof.
  destruct (strip_head s) as [E|(c & t & E & Hc)]; rewrite E; [done|].
  unfold Str.strip at 1. rewrite (lstrip_idem_head c t Hc), <-E.
  unfold Str.strip. apply rstrip_idem.
Qed.

Lemma all_lstrip p s : Str.all p s = true → Str.all p (Str.lstrip s) = true.
Proof.
  induction s as [|c s IH]; [done|]. simpl.
  intros [Hc Hs]%andb_true_iff.
  destruct (Char.is_space c); [by auto|]. simpl. by rewrite Hc, Hs.
Qed.

Lemma all_rstrip p s : Str.all p s = true → Str.all p (Str.rstrip s) = true.
Proof.
  induction s as [|c s IH]; [done|]. simpl.
  intros [Hc Hs]%andb_true_iff. specialize (IH Hs).
  destruct (Str.rstrip s) as [|c' r].
  - destruct (Char.is_space c); [done|]. simpl. by rewrite Hc.
  - simpl in *. by rewrite Hc, IH.
Qed.

Lemma all_strip p s : Str.all p s = true → Str.all p (Str.strip s) = true.
Proof. intros H. by apply all_rstrip, all_lstrip. Qed.

Lemma lstrip_all_space s :
  Str.all Char.is_space s = true → Str.lstrip s = "".
Proof.
  induction s as [|c s IH]; [done|]. simpl.
  intros [Hc Hs]%andb_true_iff. rewrite Hc. auto.
Qed.

Lemma rstrip_all_space s :
  Str.all Char.is_space s = true → Str.rstrip s = "".
Proof.
  induction s as [|c s IH]; [done|]. simpl.
  intros [Hc Hs]%andb_true_iff. by rewrite (IH Hs), Hc.
Qed.

Lemma lstrip_app_space ws s :
  Str.all Char.is_space ws = true → Str.lstrip (ws +:+ s) = Str.lstrip s.
Proof.
  induction ws as [|c ws IH]; [done|]. rewrite app_cons. simpl.
  intros [Hc Hs]%andb_true_iff. rewrite Hc. auto.
Qed.

Lemma rstrip_app_space s ws :
  Str.all Char.is_space ws = true → Str.rstrip (s +:+ ws) = Str.rstrip s.
Proof.
  intros Hws. induction s as [|c s IH].
  - rewrite app_empty_l. by apply rstrip_all_space.
  - rewrite app_cons. simpl. by rewrite IH.
Qed.

Lemma lstrip_app s t :
  Str.lstrip (s +:+ t)
  = if decide (Str.lstrip s = "") then Str.lstrip t else Str.lstrip s +:+ t.
Proof.
  induction s as [|c s IH]; [done|]. rewrite app_cons. simpl.
  destruct (Char.is_space c); [done|]. by rewrite decide_False.
Qed.

Lemma strip_app_space ws1 s ws2 :
  Str.all Char.is_space ws1 = true → Str.all Char.is_space ws2 = true →
  Str.strip (ws1 +:+ s +:+ ws2) = Str.strip s.
Proof.
  intros H1 H2. unfold Str.strip.
  rewrite (lstrip_app_space _ _ H1), lstrip_app.
  destruct (decide (Str.lstrip s = "")) as [E|_].
  - by rewrite E, (lstrip_all_space _ H2).
  - by apply rstrip_app_space.
Qed.

(** X11: white space before and after a line of a blocklist, of whatever
    kind and length, changes nothing in what the line gives. *)
Theorem surrounding_space_ignored rules ws1 line ws2 :
  Str.all Char.is_space ws1 = true →
  Str.all Char.is_space ws2 = true →
  parse_line rules (ws1 +:+ line +:+ ws2) = parse_line rules line.
Proof.
  intros H1 H2. unfold parse_line. by rewrite (strip_app_space _ _ _ H1 H2).
Qed.

(** A tab before a hosts-file entry and a carriage return after it. *)
Lemma surrounding_space_ignored_witness :
  (Str.all Char.is_space (String (Char.chr 9) " ") = true
   ∧ Str.all Char.is_space (String (Char.chr 13) "") = true)
  ∧ parse_line ∅
      (String (Char.chr 9) " " +:+ "0.0.0.0 a.example"
       +:+ String (Char.chr 13) "")
    = parse_line ∅ "0.0.0.0 a.example".
Proof.
  split; [done|]. by apply surrounding_space_ignored.
Defined.

(** ** The names of the groups *)

Section Names.

Variable requests_get : nat → string → option string.

Lemma parsed_sources_names manifest :
  ∀ n name rules,
    (name, rules) ∈ parsed_sources requests_get n manifest →
    Str.strip name = name ∧ no_comma name.
Proof.
  induction manifest as [|line manifest IH]; intros n name rules; simpl.
  { by intros ?%elem_of_nil. }
  destruct (_ || _); [by apply IH|].
  destruct (split_comma_1_cases (Str.strip line))
    as [[_ ->]|[_ (a & b & -> & Ha & _)]]; simpl; [by apply IH|].
  destruct (requests_get n (Str.strip b)) as [text|]; [|by apply IH].
  destruct (parse_blocklist text) as [rules'|]; [|by intros ?%elem_of_nil].
  intros [[= -> ->]|Hin]%elem_of_cons; [|by eapply IH].
  split; [apply strip_idem|by apply all_strip].
Qed.

(** X12: every name of a group of the finished catalogue is free of
    surrounding white space and has no comma in it; so a comma in a
    manifest line after the first one always belongs to the address. *)
Theorem group_names_trimmed manifest :
  ∃ st, catalog requests_get manifest = Ok st
    ∧ ∀ name, name ∈ Dict.keys (blocklists st) →
              Str.strip name = name ∧ no_comma name.
Proof.
  destruct (read_manifest_spec requests_get manifest) as (st0 & E & Hb & _).
  exists (add_combined st0). unfold catalog. rewrite E. split; [done|].
  assert (∀ name rules, (name, rules) ∈ blocklists st0 →
                        Str.strip name = name ∧ no_comma name) as H0.
  { intros name rules. rewrite Hb.
    intros [[]%elem_of_nil|Hin]%assign_all_elem.
    by eapply parsed_sources_names. }
  intros name ([name' rules] & -> & Hin)%list_elem_of_fmap. simpl.
  destruct (decide (all_rules st0 = ∅)) as [Hempty|Hne].
  - rewrite add_combined_empty in Hin by done. by eapply H0.
  - rewrite add_combined_blocklists in Hin by done.
    apply elem_set in Hin as [[= -> ->]|Hin]; [done|]. by eapply H0.
Qed.

End Names.

(** ** Texts joined by a line feed *)

Lemma splitlines_joined c1 c2 :
  ∃ pre, Str.splitlines (c1 +:+ String (Char.chr 10) c2)
         = pre ++ Str.splitlines c2
    ∧ pre ≠ []
    ∧ (pre = Str.splitlines c1 ∨ pre = Str.splitlines c1 ++ [""]).
Proof.
  induction c1 as [|c c1 (pre & E & Hne & Hpre)].
  { exists [""]. rewrite app_empty_l. split; [done|]. split; [done|by right]. }
  rewrite app_cons. cbn [Str.splitlines].
  destruct (Char.is_linebreak c) eqn:Hlb.
  - destruct c1 as [|c' c1].
    + rewrite app_empty_l in *. simpl in E. simplify_list_eq.
      destruct (Char.ord c =? 13)%N; simpl.
      * exists [""]. by auto.
      * exists [""; ""]. split; [done|]. split; [done|by right].
    + rewrite app_cons in *.
      change (Str.startswith_char (Char.chr 10) (String c' ?s))
        with (bool_decide (c' = Char.chr 10)).
      destruct (_ && _).
      * by exists pre.
      * exists ("" :: pre). rewrite E. split; [done|]. split; [done|].
        destruct Hpre as [->| ->]; by auto.
  - rewrite E. destruct pre as [|l ls]; [done|].
    exists (String c l :: ls). split; [done|]. split; [done|].
    destruct (Str.splitlines c1) as [|l' ls'].
    + destruct Hpre as [?| ?]; simplify_list_eq. by left.
    + destruct Hpre as [?| ?]; simplify_list_eq; by auto.
Qed.

Lemma parse_line_empty : ∀ r, parse_line ∅ "" ≠ Ok {[ r ]}.
Proof. intros r H%Ok_inj. by apply empty_not_singleton in H. Qed.

(** X13: the rule set of two texts joined by a line feed is the union of
    their rule sets, whether or not the first text ends in a line
    boundary. *)
Theorem joined_texts_unite_rules content1 content2 :
  ∃ rules1 rules2,
    parse_blocklist content1 = Ok rules1
    ∧ parse_blocklist content2 = Ok rules2
    ∧ parse_blocklist (content1 +:+ String (Char.chr 10) content2)
      = Ok (rules1 ∪ rules2).
Proof.
  destruct (parse_blocklist_ok content1) as [rules1 H1].
  destruct (parse_blocklist_ok content2) as [rules2 H2].
  destruct (parse_blocklist_ok (content1 +:+ String (Char.chr 10) content2))
    as [rules H].
  exists rules1, rules2. split; [done|]. split; [done|].
  rewrite H. f_equal. apply set_eq. intros r.
  rewrite elem_of_union.
  rewrite (for_each_parse_line_iff _ _ _ H r),
    (for_each_parse_line_iff _ _ _ H1 r),
    (for_each_parse_line_iff _ _ _ H2 r).
  destruct (splitlines_joined content1 content2) as (pre & -> & _ & Hpre).
  pose proof parse_line_empty as Hempty.
  split.
  - intros [[]%elem_of_empty|(line & Hin & Hl)].
    apply elem_of_app in Hin as [Hin|Hin]; [|right; right; by exists line].
    destruct Hpre as [->| ->]; [left; right; by exists line|].
    apply elem_of_app in Hin as [Hin|Hin]; [left; right; by exists line|].
    apply list_elem_of_singleton in Hin as ->. by destruct (Hempty r).
  - intros [[[]%elem_of_empty|(line & Hin & Hl)]
           |[[]%elem_of_empty|(line & Hin & Hl)]];
      right; exists line; (split; [|done]); rewrite elem_of_app.
    + left. destruct Hpre as [->| ->]; [done|]. rewrite elem_of_app. by left.
    + by right.
Qed.
